(** * Stealthy-Communicator: the image LSB codec of [src/utils/steganography.ts]

    A shallow embedding of [encodeMessage], [decodeMessage] and
    [extractTextFromBinary], and the properties of the codec.

    Representation choices, all read off the TypeScript source:
    - a JavaScript string is the list of its UTF-16 code units ([list N],
      every unit below 65536);
    - the strings [binaryMessage] / [binary] / [byte] only ever hold the
      characters '0' and '1' (they are built from [toString(2)],
      [padStart(8, "0")] and [+= bit] with [bit] in {0,1}); such a string is
      a [list bool], [true] standing for the character '1';
    - [imageData.data] (a [Uint8ClampedArray]) is a [list N] read with
      stdpp's lookup and written with stdpp's insert: reading out of range
      gives [undefined], which [&] coerces to 0, and writing out of range is
      ignored by a typed array, as stdpp's insert does;
    - the promise returned by either function is its settled outcome.

    Of the audio and video functions, which hand the files to an external
    transcoder, the parts that compute on strings are embedded: the search
    of the metadata text and the file type of the audio decoder; of the
    application, the guard of the encode handler. *)

From Stdlib Require Import NArith ZArith Ascii String Lia.
From stdpp Require Import base numbers list strings.

Local Open Scope nat_scope.

(** ** JavaScript primitives used by the codec *)

(** Code units of a string literal. *)
Definition js (s : string) : list N :=
  map N_of_ascii (list_ascii_of_string s).

(** [n.toString(2)] for a non-negative integer: the binary digits, most
    significant first, with no leading zero ("0" for zero). *)
Fixpoint pos_digits (p : positive) : list bool :=
  match p with
  | xH => [true]
  | xO q => pos_digits q ++ [false]
  | xI q => pos_digits q ++ [true]
  end.

Definition toString2 (n : N) : list bool :=
  match n with
  | N0 => [false]
  | Npos p => pos_digits p
  end.

(** [s.padStart(8, "0")]: pads on the left up to length 8, never truncates. *)
Definition padStart8 (s : list bool) : list bool :=
  replicate (8 - length s) false ++ s.

(** [parseInt(s, 2)] on a string of binary digits. *)
Definition parseInt2 (s : list bool) : N :=
  fold_left (fun acc b => (2 * acc + N.b2n b)%N) s 0%N.

(** [parseInt(binaryMessage[i], 10)]: the digit read at index [i]; an index
    out of range reads [undefined], parsed to NaN, which [|] coerces to 0. *)
Definition parseInt10 (c : option bool) : N :=
  match c with
  | Some b => N.b2n b
  | None => 0%N
  end.

(** [s.substring(a, b)]: both indices are clamped to [0, s.length] and
    swapped when [a > b]. *)
Definition substring {A} (s : list A) (a b : Z) : list A :=
  let len := Z.of_nat (length s) in
  let a' := Z.min (Z.max a 0) len in
  let b' := Z.min (Z.max b 0) len in
  let lo := Z.min a' b' in
  let hi := Z.max a' b' in
  take (Z.to_nat (hi - lo)) (drop (Z.to_nat lo) s).

(** [t] starts with [s]. *)
Fixpoint isPrefix (s t : list N) : bool :=
  match s, t with
  | [], _ => true
  | _ :: _, [] => false
  | x :: s', y :: t' => if (x =? y)%N then isPrefix s' t' else false
  end.

(** [t.indexOf(s)]: the least position at which [s] occurs in [t], -1 when
    there is none. [pos] is the position of the head of [t]. *)
Fixpoint indexOfFrom (s t : list N) (pos : Z) : Z :=
  if isPrefix s t then pos
  else match t with
       | [] => (-1)%Z
       | _ :: t' => indexOfFrom s t' (pos + 1)%Z
       end.

Definition indexOf (t s : list N) : Z := indexOfFrom s t 0%Z.

(** [t.includes(s)]: true unless the index search reports not-found. *)
Definition includes (t s : list N) : bool :=
  negb (indexOf t s =? -1)%Z.

(** ** The codec *)

Definition START : list N := Eval vm_compute in js "<<START>>".
Definition END : list N := Eval vm_compute in js "<<END>>".

(** Line 38: [`<<START>>${message}<<END>>`]. *)
Definition messageWithMarker (message : list N) : list N :=
  START ++ message ++ END.

(** Lines 42-45: [charCodeAt(i).toString(2).padStart(8, "0")]. *)
Definition charBinary (c : N) : list bool := padStart8 (toString2 c).

(** Lines 39-47: the loop appending the digits of each code unit. *)
Fixpoint toBinary (s : list N) (binaryMessage : list bool) : list bool :=
  match s with
  | [] => binaryMessage
  | c :: s' => toBinary s' (binaryMessage ++ charBinary c)
  end.

Definition frame (message : list N) : list bool :=
  toBinary (messageWithMarker message) [].

(** Lines 50-52. *)
Definition capacity (width height : N) : N := (width * height * 3)%N.

(** Number of iterations of [for (pixelIndex = 0; pixelIndex < data.length / 4;
    pixelIndex++)]: the division is exact for image data, whose length is
    [4 * width * height]; in general it is the ceiling. *)
Definition pixelCount (data : list N) : nat := (length data + 3) / 4.

(** Line 70: [data[i] = (data[i] & 0xfe) | bit]. The value stored is below
    256, so the clamped array keeps it as it is. *)
Definition setLSB (data : list N) (i : nat) (bit : N) : list N :=
  <[ i := N.lor (N.land (default 0%N (data !! i)) 254) bit ]> data.

(** Lines 64-76: the loop over the channels of one pixel; [n] counts the
    iterations left, [channel] is the loop variable. The result is the
    buffer and [messageBitIndex]. *)
Fixpoint embedChannels (bits : list bool) (pixelIndex : nat) (n channel : nat)
    (data : list N) (messageBitIndex : nat) : list N * nat :=
  match n with
  | O => (data, messageBitIndex)
  | S n' =>
      if messageBitIndex <? length bits then
        let dataIndex := pixelIndex * 4 + channel in
        let bit := parseInt10 (bits !! messageBitIndex) in
        embedChannels bits pixelIndex n' (S channel)
          (setLSB data dataIndex bit) (S messageBitIndex)
      else (data, messageBitIndex) (* break *)
  end.

(** Lines 62-81: the loop over the pixels. *)
Fixpoint embedPixels (bits : list bool) (n pixelIndex : nat)
    (data : list N) (messageBitIndex : nat) : list N * nat :=
  match n with
  | O => (data, messageBitIndex)
  | S n' =>
      let '(data1, mbi1) :=
        embedChannels bits pixelIndex 3 0 data messageBitIndex in
      if length bits <=? mbi1 then (data1, mbi1) (* break *)
      else embedPixels bits n' (S pixelIndex) data1 mbi1
  end.

Definition embed (data : list N) (bits : list bool) : list N :=
  fst (embedPixels bits (pixelCount data) 0 data 0).

(** Outcome of the promise of [encodeMessage]: resolved with the image made
    of the canvas pixels, or rejected with an error message. *)
Inductive encoded :=
  | EncResolved (pixels : list N)
  | EncRejected (error : string).

(** Line 55: the error of the capacity check. *)
Definition tooLarge : string := "Message is too large for this image".

(** [encodeMessage] on the pixels [data] of a [width] x [height] image. The
    first component is the pixel buffer when the function is left. *)
Definition encodeMessage (width height : N) (data : list N)
    (message : list N) : list N * encoded :=
  let binaryMessage := frame message in
  let totalUsableBits := capacity width height in
  if (totalUsableBits <? N.of_nat (length binaryMessage))%N then
    (data, EncRejected tooLarge)
  else
    let data' := embed data binaryMessage in
    (data', EncResolved data').

(** Lines 167-179: [extractTextFromBinary]; [n] counts the iterations left of
    [for (i = 0; i < binary.length; i += 8)]. *)
Fixpoint extractLoop (binary : list bool) (n i : nat) (text : list N)
    : list N :=
  match n with
  | O => text
  | S n' =>
      let byte := substring binary (Z.of_nat i) (Z.of_nat i + 8) in
      let text' :=
        if length byte =? 8 then text ++ [parseInt2 byte] else text in
      extractLoop binary n' (i + 8) text'
  end.

Definition extractTextFromBinary (binary : list bool) : list N :=
  extractLoop binary ((length binary + 7) / 8) 0 [].

(** Lines 137-149: the marker search on the text decoded so far. *)
Definition unframe (extractedText : list N) : option (list N) :=
  if includes extractedText START && includes extractedText END then
    let startIndex := (indexOf extractedText START + 9)%Z in
    let endIndex := indexOf extractedText END in
    if (startIndex <? endIndex)%Z then
      Some (substring extractedText startIndex endIndex)
    else None
  else None.

(** Lines 132-150: the check made after a bit is appended. *)
Definition checkpoint (binaryMessage : list bool) : option (list N) :=
  if (length binaryMessage mod 8 =? 0) && (8 * 9 <=? length binaryMessage)
  then unframe (extractTextFromBinary binaryMessage)
  else None.

(** Line 128-129: [bit = data[i] & 0x01; binaryMessage += bit]. *)
Definition lsbChar (data : list N) (dataIndex : nat) : bool :=
  (N.land (default 0%N (data !! dataIndex)) 1 =? 1)%N.

(** Lines 126-151: the loop over the channels of one pixel. [inr message]
    is the early [resolve(message); return], [inl] the bits gathered. *)
Fixpoint decodeChannels (data : list N) (pixelIndex : nat) (n channel : nat)
    (binaryMessage : list bool) : list bool + list N :=
  match n with
  | O => inl binaryMessage
  | S n' =>
      let dataIndex := pixelIndex * 4 + channel in
      let binaryMessage' := binaryMessage ++ [lsbChar data dataIndex] in
      match checkpoint binaryMessage' with
      | Some message => inr message
      | None => decodeChannels data pixelIndex n' (S channel) binaryMessage'
      end
  end.

(** Outcome of the promise of [decodeMessage]. The source rejects when no
    canvas context can be made or when an exception is caught; the
    computation on the pixels raises none. *)
Inductive decoded :=
  | DecResolved (message : option (list N))
  | DecRejected (error : string).

(** Lines 124-155: the loop over the pixels, then [resolve(null)]. *)
Fixpoint decodePixels (data : list N) (n pixelIndex : nat)
    (binaryMessage : list bool) : decoded :=
  match n with
  | O => DecResolved None
  | S n' =>
      match decodeChannels data pixelIndex 3 0 binaryMessage with
      | inr message => DecResolved (Some message)
      | inl binaryMessage' => decodePixels data n' (S pixelIndex) binaryMessage'
      end
  end.

(** Line 122: the ceiling on the pixels scanned. *)
Definition scanCeiling : nat := N.to_nat 100000.

Definition maxPixels (data : list N) : nat :=
  Nat.min (pixelCount data) scanCeiling.

Definition decodeMessage (data : list N) : decoded :=
  decodePixels data (maxPixels data) 0 [].

(** ** The metadata search of the audio and video decoders *)

(** The line terminators of JavaScript (LF, CR, LS, PS): the characters
    that [.] does not match in a regular expression without the [s] flag. *)
Definition isLineTerminator (c : N) : bool :=
  (c =? 10)%N || (c =? 13)%N || (c =? 8232)%N || (c =? 8233)%N.

(** The characters stripped by [trim]: the line terminators and the white
    space of JavaScript (TAB, VT, FF, the space separators of Unicode and
    the byte order mark). *)
Definition isWhiteSpace (c : N) : bool :=
  isLineTerminator c
  || (c =? 9)%N || (c =? 11)%N || (c =? 12)%N || (c =? 32)%N || (c =? 160)%N
  || (c =? 5760)%N || ((8192 <=? c)%N && (c <=? 8202)%N)
  || (c =? 8239)%N || (c =? 8287)%N || (c =? 12288)%N || (c =? 65279)%N.

Fixpoint takeWhile {A} (f : A -> bool) (l : list A) : list A :=
  match l with
  | [] => []
  | x :: l' => if f x then x :: takeWhile f l' else []
  end.

Fixpoint dropWhile {A} (f : A -> bool) (l : list A) : list A :=
  match l with
  | [] => []
  | x :: l' => if f x then dropWhile f l' else l
  end.

(** [s.trimStart()]. *)
Definition trimStart (s : list N) : list N := dropWhile isWhiteSpace s.

(** [s.trimEnd()]: a character is kept when it is not white space or when
    something is kept after it. *)
Fixpoint trimEnd (s : list N) : list N :=
  match s with
  | [] => []
  | c :: s' =>
      match trimEnd s' with
      | [] => if isWhiteSpace c then [] else [c]
      | kept => c :: kept
      end
  end.

(** [s.trim()]. *)
Definition trim (s : list N) : list N := trimEnd (trimStart s).

Definition TITLE : list N := Eval vm_compute in js "title=".
Definition COMMENT : list N := Eval vm_compute in js "comment=".

(** The second group of the pattern, any characters: greedy, up to the
    first line terminator or the end of the text. *)
Definition restOfLine (t : list N) : list N :=
  takeWhile (fun c => negb (isLineTerminator c)) t.

(** Lines 277 and 376: [metadataText.match] with the pattern made of the
    group [title|comment], the character [=] and a group of any characters;
    the result is the second group of the leftmost match, if there is one.
    At a position the alternative [title] is tried before [comment]. *)
Fixpoint matchTag (t : list N) : option (list N) :=
  if isPrefix TITLE t then Some (restOfLine (drop 6 t))
  else if isPrefix COMMENT t then Some (restOfLine (drop 8 t))
  else match t with
       | [] => None
       | _ :: t' => matchTag t'
       end.

(** Lines 282 and 381: [match ? match[2].trim() : null], what
    [decodeVideoMessage] and [decodeAudioMessage] return for the text of the
    metadata file. *)
Definition metadataMessage (metadataText : list N) : option (list N) :=
  match matchTag metadataText with
  | Some group => Some (trim group)
  | None => None
  end.

(** ** The file type of the audio decoder *)

(** A character of the source against a character [p] of a pattern with
    the flag [i]: the pattern characters here are a dot, digits and lower
    case letters, and only the two ASCII cases of a letter match it. *)
Definition eqIgnoreCase (p c : N) : bool :=
  (c =? p)%N || ((97 <=? p)%N && (p <=? 122)%N && (c + 32 =? p)%N).

Fixpoint isPrefixIgnoreCase (s t : list N) : bool :=
  match s, t with
  | [], _ => true
  | _ :: _, [] => false
  | p :: s', c :: t' =>
      if eqIgnoreCase p c then isPrefixIgnoreCase s' t' else false
  end.

Definition audioExtensions : list (list N) :=
  Eval vm_compute in [js ".mp3"; js ".wav"; js ".ogg"; js ".m4a"].

(** Line 359: the text matched by the leftmost match of the pattern
    [\.mp3|\.wav|\.ogg|\.m4a] with the flag [i]; every alternative has
    four characters. *)
Fixpoint matchAudioExtension (t : list N) : option (list N) :=
  if existsb (fun e => isPrefixIgnoreCase e t) audioExtensions
  then Some (take 4 t)
  else match t with
       | [] => None
       | _ :: t' => matchAudioExtension t'
       end.

(** Lines 358-359 of [decodeAudioMessage]: the matched text without its
    dot, and "mp3" when nothing matched (or the text were empty). *)
Definition audioFileType (audioSrc : list N) : list N :=
  match matchAudioExtension audioSrc with
  | Some matched =>
      match substring matched 1 (Z.of_nat (length matched)) with
      | [] => js "mp3"
      | fileType => fileType
      end
  | None => js "mp3"
  end.

(** ** The guard of the encode handler *)


(** ** Specification-side definitions *)

(** The eight bits of a byte, most significant first. *)
Definition byteBits (b : N) : list bool :=
  N.testbit b <$> [7; 6; 5; 4; 3; 2; 1; 0]%N.

(** Framing as the specification words it: one byte per character, the
    code unit modulo 256, expanded most significant bit first. *)
Definition frame_spec (message : list N) : list bool :=
  mjoin ((fun c => byteBits (c mod 256)%N) <$> messageWithMarker message).

(** All code units fit one byte. *)
Definition latin1 (s : list N) : Prop := Forall (fun c => (c < 256)%N) s.

(** Code units of ASCII characters. *)
Definition asciiText (s : list N) : Prop := Forall (fun c => (c < 128)%N) s.

(** All channel values are bytes, as in a [Uint8ClampedArray]. *)
Definition byteBuffer (data : list N) : Prop :=
  Forall (fun d => (d < 256)%N) data.

(** [s] occurs in [t] at position [p]. *)
Definition occursAt (s t : list N) (p : nat) : Prop :=
  exists pre post, t = pre ++ s ++ post /\ length pre = p.

Definition firstOccurrence (s t : list N) (p : nat) : Prop :=
  occursAt s t p /\ forall q, q < p -> ~ occursAt s t q.

(** Unframing as the specification words it: the first start marker, then
    the first end marker found after it, and the text strictly between. *)
Definition unframe_spec (text : list N) : option (list N) :=
  let s := indexOf text START in
  if (s =? -1)%Z then None
  else
    let rest := drop (Z.to_nat (s + 9)) text in
    let e := indexOf rest END in
    if (e =? -1)%Z then None
    else if (0 <? e)%Z then Some (take (Z.to_nat e) rest) else None.

(** Position in the buffer of the [k]-th colour channel in scan order. *)
Definition chanIndex (k : nat) : nat := k / 3 * 4 + k mod 3.

(** The least significant bits of the channels [k], ..., [k + n - 1]. *)
Definition lsbStream (data : list N) (k n : nat) : list bool :=
  (fun j => lsbChar data (chanIndex j)) <$> seq k n.

(** First successful result of [f] along a list of candidates. *)
Fixpoint firstSome {A B} (f : A -> option B) (l : list A) : option B :=
  match l with
  | [] => None
  | x :: l' => match f x with
               | Some y => Some y
               | None => firstSome f l'
               end
  end.

(** The message of the first prefix of [stream] that passes the check. *)
Definition firstMatch (stream : list bool) : option (list N) :=
  firstSome (fun j => checkpoint (take j stream)) (seq 1 (length stream)).

(** Writing the bits [k], ..., [k + t - 1] into their channels. *)
Fixpoint writeBits (bits : list bool) (k t : nat) (data : list N) : list N :=
  match t with
  | O => data
  | S t' =>
      writeBits bits (S k) t' (setLSB data (chanIndex k) (parseInt10 (bits !! k)))
  end.

(** ** The code on small inputs *)

Example charBinary_A :
  charBinary 65 = [false; true; false; false; false; false; false; true].
Proof. reflexivity. Qed.

Example frame_hi_length : length (frame (js "hi")) = 144.
Proof. reflexivity. Qed.

Example embed_two_bits :
  embed [254; 7; 8; 255; 3; 3; 3; 3]%N [true; false]
  = [255; 6; 8; 255; 3; 3; 3; 3]%N.
Proof. reflexivity. Qed.

Example extractTextFromBinary_hi :
  extractTextFromBinary (charBinary 104 ++ charBinary 105 ++ [true; true])
  = js "hi".
Proof. reflexivity. Qed.

Example unframe_hello :
  unframe (js "..<<START>>hello<<END>>..") = Some (js "hello").
Proof. by vm_compute. Qed.

Example decode_encode_hello :
  decodeMessage (fst (encodeMessage 10 10 (replicate 400 7%N) (js "hello")))
  = DecResolved (Some (js "hello")).
Proof. by vm_compute. Qed.

Example metadataMessage_ffmetadata :
  metadataMessage (js ";FFMETADATA1
major_brand=isom
title= hello world 
comment= hello world 
encoder=Lavf60.3.100
") = Some (js "hello world").
Proof. by vm_compute. Qed.

Example metadataMessage_no_tag :
  metadataMessage (js ";FFMETADATA1
encoder=Lavf60.3.100
") = None.
Proof. by vm_compute. Qed.

Example audioFileType_upper :
  audioFileType (js "https://host/song.final.WAV?x=1") = js "WAV".
Proof. by vm_compute. Qed.

Example audioFileType_blob :
  audioFileType (js "blob:https://host/0b8e-42") = js "mp3".
Proof. by vm_compute. Qed.

(** ** Bytes and binary digits *)

Lemma forallb_bytes (f : N -> bool) :
  forallb f (map N.of_nat (seq 0 256)) = true ->
  forall c, (c < 256)%N -> f c = true.
Proof.
  intros Hall c Hc.
  rewrite forallb_forall in Hall. apply Hall.
  rewrite <- (N2Nat.id c). apply in_map, in_seq. lia.
Qed.

Lemma charBinary_length c : (c < 256)%N -> length (charBinary c) = 8.
Proof.
  intros Hc. apply Nat.eqb_eq.
  revert c Hc. apply forallb_bytes. vm_compute. reflexivity.
Qed.

Lemma parseInt2_charBinary c : (c < 256)%N -> parseInt2 (charBinary c) = c.
Proof.
  intros Hc. apply N.eqb_eq.
  revert c Hc. apply (forallb_bytes (fun c => (parseInt2 (charBinary c) =? c)%N)).
  vm_compute. reflexivity.
Qed.

Lemma charBinary_byteBits c :
  (c < 256)%N -> charBinary c = byteBits (c mod 256)%N.
Proof.
  intros Hc.
  apply (bool_decide_eq_true (charBinary c = byteBits (c mod 256)%N)).
  revert c Hc.
  apply (forallb_bytes
           (fun c => bool_decide (charBinary c = byteBits (c mod 256)%N))).
  vm_compute. reflexivity.
Qed.

Lemma setLSB_value_byte d (b : bool) :
  (N.lor (N.land d 254) (N.b2n b) < 256)%N.
Proof.
  set (x := N.lor (N.land d 254) (N.b2n b)).
  destruct (N.eq_dec x 0%N) as [Hx|Hx]; [rewrite Hx; reflexivity|].
  change 256%N with (2 ^ 8)%N. apply N.log2_lt_pow2; [lia|].
  unfold x. rewrite N.log2_lor.
  pose proof (N.log2_land d 254) as Hl.
  change (N.log2 254) with 7%N in Hl.
  assert (N.log2 (N.b2n b) = 0%N) by (destruct b; reflexivity).
  lia.
Qed.

Lemma lsb_testbit d : (N.land d 1 =? 1)%N = N.testbit d 0.
Proof. destruct d as [|[p|p|]]; reflexivity. Qed.

Lemma lsb_written d (b : bool) :
  (N.land (N.lor (N.land d 254) (N.b2n b)) 1 =? 1)%N = b.
Proof.
  rewrite lsb_testbit, N.lor_spec, N.land_spec.
  change (N.testbit 254 0) with false.
  rewrite andb_false_r. destruct b; reflexivity.
Qed.

Lemma high_bits_kept d (b : bool) :
  (d < 256)%N -> N.div2 (N.lor (N.land d 254) (N.b2n b)) = N.div2 d.
Proof.
  intros Hd. apply N.eqb_eq. revert d Hd.
  destruct b.
  - apply (forallb_bytes
             (fun d => (N.div2 (N.lor (N.land d 254) 1) =? N.div2 d)%N)).
    vm_compute. reflexivity.
  - apply (forallb_bytes
             (fun d => (N.div2 (N.lor (N.land d 254) 0) =? N.div2 d)%N)).
    vm_compute. reflexivity.
Qed.

(** ** Framing *)

Lemma toBinary_join s : forall acc,
  toBinary s acc = acc ++ mjoin (charBinary <$> s).
Proof.
  induction s as [|c s IH]; intros acc; simpl.
  - by rewrite app_nil_r.
  - by rewrite IH, app_assoc.
Qed.

Lemma frame_join message :
  frame message = mjoin (charBinary <$> messageWithMarker message).
Proof. unfold frame. by rewrite toBinary_join. Qed.

Lemma latin1_markers message :
  latin1 message -> latin1 (messageWithMarker message).
Proof.
  intros Hm. unfold latin1, messageWithMarker.
  repeat apply Forall_app_2; try done.
  - unfold START. repeat constructor.
  - unfold END. repeat constructor.
Qed.

Lemma join_charBinary_cons c s :
  mjoin (charBinary <$> c :: s) = charBinary c ++ mjoin (charBinary <$> s).
Proof. reflexivity. Qed.

Lemma join_charBinary_length s :
  latin1 s -> length (mjoin (charBinary <$> s)) = 8 * length s.
Proof.
  induction 1 as [|c s Hc _ IH]; [done|].
  rewrite join_charBinary_cons, length_app, charBinary_length, IH by done.
  cbn [length]. lia.
Qed.

Lemma messageWithMarker_length message :
  length (messageWithMarker message) = 16 + length message.
Proof.
  unfold messageWithMarker. rewrite !length_app. simpl. lia.
Qed.

Lemma frame_length message :
  latin1 message -> length (frame message) = 8 * (16 + length message).
Proof.
  intros Hm.
  rewrite frame_join, join_charBinary_length by by apply latin1_markers.
  by rewrite messageWithMarker_length.
Qed.

Lemma frame_latin1_spec message :
  latin1 message -> frame message = frame_spec message.
Proof.
  intros Hm. rewrite frame_join. unfold frame_spec.
  f_equal. apply Forall_fmap_ext_1.
  eapply Forall_impl; [by apply latin1_markers|].
  intros c Hc. by apply charBinary_byteBits.
Qed.

Lemma join_charBinary_take s q :
  latin1 s ->
  take (8 * q) (mjoin (charBinary <$> s)) = mjoin (charBinary <$> take q s).
Proof.
  intros Hs. revert q.
  induction Hs as [|c s Hc _ IH]; intros q.
  - rewrite take_nil. change (mjoin (charBinary <$> @nil N)) with (@nil bool).
    by rewrite take_nil.
  - destruct q as [|q]; [done|].
    replace (8 * S q) with (length (charBinary c) + 8 * q)
      by (rewrite charBinary_length by done; lia).
    cbn [take]. rewrite !join_charBinary_cons.
    by rewrite take_app_add, IH.
Qed.

Lemma join_charBinary_drop s q :
  latin1 s ->
  drop (8 * q) (mjoin (charBinary <$> s)) = mjoin (charBinary <$> drop q s).
Proof.
  intros Hs. revert q.
  induction Hs as [|c s Hc _ IH]; intros q.
  - rewrite drop_nil. change (mjoin (charBinary <$> @nil N)) with (@nil bool).
    by rewrite drop_nil.
  - destruct q as [|q]; [done|].
    replace (8 * S q) with (length (charBinary c) + 8 * q)
      by (rewrite charBinary_length by done; lia).
    cbn [drop]. rewrite !join_charBinary_cons.
    by rewrite drop_app_add, IH.
Qed.

(** ** Decoding the bits back into text *)

Lemma substring_range {A} (s : list A) (a b : nat) :
  a <= b ->
  substring s (Z.of_nat a) (Z.of_nat b) = take (b - a) (drop a s).
Proof.
  intros Hab. unfold substring.
  destruct (decide (length s <= a)) as [Hlen|Hlen].
  - rewrite (drop_ge s a) by done. rewrite take_nil.
    rewrite drop_ge by lia. by rewrite take_nil.
  - replace (Z.to_nat (Z.min (Z.min (Z.max (Z.of_nat a) 0) (Z.of_nat (length s)))
        (Z.min (Z.max (Z.of_nat b) 0) (Z.of_nat (length s))))) with a by lia.
    destruct (decide (b <= length s)) as [Hb|Hb].
    + f_equal. lia.
    + rewrite !take_ge; [done | rewrite length_drop; lia..].
Qed.

Lemma extractLoop_join s :
  latin1 s ->
  forall n j text,
    j + n = length s ->
    extractLoop (mjoin (charBinary <$> s)) n (8 * j) text = text ++ drop j s.
Proof.
  intros Hs. induction n as [|n IH]; intros j text Hj.
  - rewrite drop_ge by lia. by rewrite app_nil_r.
  - cbn [extractLoop].
    replace (Z.of_nat (8 * j) + 8)%Z with (Z.of_nat (8 * j + 8)) by lia.
    rewrite substring_range by lia.
    replace (8 * j + 8 - 8 * j) with 8 by lia.
    rewrite join_charBinary_drop by done.
    destruct (drop j s) as [|c rest] eqn:Hdrop.
    { apply (f_equal length) in Hdrop. rewrite length_drop in Hdrop.
      simpl in Hdrop. lia. }
    assert (c < 256)%N as Hc.
    { eapply (Forall_forall (fun c => (c < 256)%N) s); [done|].
      apply (list_elem_of_lookup_2 _ j). rewrite <- (Nat.add_0_r j).
      rewrite <- lookup_drop, Hdrop. done. }
    rewrite join_charBinary_cons.
    rewrite take_app_length' by by rewrite charBinary_length.
    rewrite charBinary_length, parseInt2_charBinary by done.
    cbn [Nat.eqb].
    replace (8 * j + 8) with (8 * S j) by lia.
    rewrite IH by lia.
    rewrite <- app_assoc. f_equal. cbn [app]. f_equal.
    replace (S j) with (j + 1) by lia. by rewrite <- drop_drop, Hdrop.
Qed.

Lemma extractTextFromBinary_join s :
  latin1 s -> extractTextFromBinary (mjoin (charBinary <$> s)) = s.
Proof.
  intros Hs. unfold extractTextFromBinary.
  rewrite join_charBinary_length by done.
  replace ((8 * length s + 7) / 8) with (length s).
  - change 0 with (8 * 0) at 1. by rewrite extractLoop_join.
  - apply Nat.div_unique with 7; lia.
Qed.

(** ** Searching a string *)

Lemma isPrefix_spec s t : isPrefix s t = true <-> exists k, t = s ++ k.
Proof.
  revert t. induction s as [|x s IH]; intros t; simpl.
  - split; [intros _; by exists t | done].
  - destruct t as [|y t].
    + split; [done | intros [k Hk]; done].
    + destruct (N.eqb_spec x y) as [->|Hne].
      * rewrite IH. split; intros [k Hk]; exists k; congruence.
      * split; [done | intros [k Hk]; congruence].
Qed.

Lemma isPrefix_app s t k : isPrefix s t = true -> isPrefix s (t ++ k) = true.
Proof.
  rewrite !isPrefix_spec. intros [k' ->]. exists (k' ++ k).
  by rewrite app_assoc.
Qed.

Lemma isPrefix_length s t : isPrefix s t = true -> length s <= length t.
Proof.
  rewrite isPrefix_spec. intros [k ->]. rewrite length_app. lia.
Qed.

Lemma isPrefix_refl s : isPrefix s s = true.
Proof. apply isPrefix_spec. exists []. by rewrite app_nil_r. Qed.

(** A prefix of [u ++ t] either lies within [u] or runs over into [t]. *)
Lemma isPrefix_app_cases s u t :
  isPrefix s (u ++ t) = true ->
  isPrefix s u = true \/ exists s', s = u ++ s' /\ isPrefix s' t = true.
Proof.
  revert u. induction s as [|x s IH]; intros u H.
  - by left.
  - destruct u as [|y u].
    + right. by exists (x :: s).
    + simpl in H |- *. destruct (N.eqb_spec x y) as [->|Hne]; [|done].
      destruct (IH u H) as [Hin|(s' & -> & Hs')]; [by left|].
      right. by exists s'.
Qed.

Lemma occursAt_isPrefix s t p :
  occursAt s t p <-> p <= length t /\ isPrefix s (drop p t) = true.
Proof.
  split.
  - intros (pre & post & -> & <-). split.
    + rewrite length_app. lia.
    + rewrite drop_app_length. apply isPrefix_spec. by exists post.
  - intros [Hp H]. apply isPrefix_spec in H as [k Hk].
    exists (take p t), k. split.
    + by rewrite <- Hk, take_drop.
    + rewrite length_take. lia.
Qed.

Lemma indexOfFrom_cases s t : forall pos,
  (indexOfFrom s t pos = (-1)%Z /\
   forall q, q <= length t -> isPrefix s (drop q t) = false)
  \/ (exists p, indexOfFrom s t pos = (pos + Z.of_nat p)%Z /\
        p <= length t /\ isPrefix s (drop p t) = true /\
        forall q, q < p -> isPrefix s (drop q t) = false).
Proof.
  induction t as [|y t IH]; intros pos; cbn [indexOfFrom].
  - destruct (isPrefix s []) eqn:Hs.
    + right. exists 0. rewrite Z.add_0_r. repeat split; [done..|lia].
    + left. split; [done|]. intros q Hq. by rewrite drop_nil.
  - destruct (isPrefix s (y :: t)) eqn:Hs.
    + right. exists 0. rewrite Z.add_0_r. repeat split; [simpl; lia|done|lia].
    + destruct (IH (pos + 1)%Z) as [[Hnone Hall]|(p & Hp & Hlen & Hat & Hbefore)].
      * left. split; [done|]. intros [|q] Hq; [done|].
        apply Hall. simpl in Hq. lia.
      * right. exists (S p). repeat split.
        -- rewrite Hp. lia.
        -- simpl. lia.
        -- done.
        -- intros [|q] Hq; [done|]. apply Hbefore. lia.
Qed.

Lemma indexOf_first_match t s p :
  p <= length t ->
  isPrefix s (drop p t) = true ->
  (forall q, q < p -> isPrefix s (drop q t) = false) ->
  indexOf t s = Z.of_nat p.
Proof.
  intros Hlen Hat Hbefore. unfold indexOf.
  destruct (indexOfFrom_cases s t 0) as [[_ Hall]|(p' & -> & Hlen' & Hat' & Hbefore')].
  - rewrite Hall in Hat; done.
  - destruct (Nat.lt_trichotomy p p') as [Hlt|[->|Hlt]].
    + rewrite Hbefore' in Hat; done.
    + done.
    + rewrite Hbefore in Hat'; done.
Qed.

Lemma indexOf_none t s :
  (forall q, q <= length t -> isPrefix s (drop q t) = false) ->
  indexOf t s = (-1)%Z.
Proof.
  intros Hall. unfold indexOf.
  destruct (indexOfFrom_cases s t 0) as [[? _]|(p & _ & Hlen & Hat & _)]; [done|].
  rewrite Hall in Hat; done.
Qed.

Lemma indexOf_none_inv t s :
  indexOf t s = (-1)%Z ->
  forall q, q <= length t -> isPrefix s (drop q t) = false.
Proof.
  unfold indexOf.
  destruct (indexOfFrom_cases s t 0) as [[_ Hall]|(p & -> & _)]; [done|lia].
Qed.

Lemma indexOf_some_inv t s :
  indexOf t s <> (-1)%Z ->
  exists p, indexOf t s = Z.of_nat p /\ p <= length t /\
    isPrefix s (drop p t) = true /\
    forall q, q < p -> isPrefix s (drop q t) = false.
Proof.
  unfold indexOf.
  destruct (indexOfFrom_cases s t 0) as [[? _]|(p & Hp & H)]; [done|].
  intros _. exists p. by rewrite Hp.
Qed.

Lemma includes_true t s : includes t s = true <-> indexOf t s <> (-1)%Z.
Proof.
  unfold includes. rewrite negb_true_iff. by rewrite Z.eqb_neq.
Qed.

Lemma includes_false t s : includes t s = false <-> indexOf t s = (-1)%Z.
Proof.
  unfold includes. rewrite negb_false_iff. by rewrite Z.eqb_eq.
Qed.

Lemma indexOf_firstOccurrence t s p :
  indexOf t s = Z.of_nat p <-> firstOccurrence s t p.
Proof.
  unfold firstOccurrence. split.
  - intros Hidx.
    destruct (indexOf_some_inv t s) as (p' & Hp' & Hlen & Hat & Hbefore); [lia|].
    assert (p' = p) as -> by lia. split.
    + by apply occursAt_isPrefix.
    + intros q Hq [_ Hocc]%occursAt_isPrefix. by rewrite Hbefore in Hocc.
  - intros [[Hlen Hat]%occursAt_isPrefix Hbefore].
    apply indexOf_first_match; [done..|].
    intros q Hq. apply not_true_is_false. intros Hocc.
    apply (Hbefore q Hq). apply occursAt_isPrefix. split; [lia | done].
Qed.

Lemma includes_occurs t s : includes t s = true <-> exists p, occursAt s t p.
Proof.
  rewrite includes_true. split.
  - intros (p & _ & Hlen & Hat & _)%indexOf_some_inv.
    exists p. by apply occursAt_isPrefix.
  - intros [p [Hlen Hat]%occursAt_isPrefix] Hnone.
    by rewrite (indexOf_none_inv _ _ Hnone p Hlen) in Hat.
Qed.

(** ** The markers *)

(** No end marker begins inside the start marker. *)
Lemma END_not_within_START q rest :
  q < 9 -> isPrefix END (drop q (START ++ rest)) = false.
Proof.
  intros Hq. do 9 (destruct q as [|q]; [reflexivity|]). lia.
Qed.

(** No proper suffix of the end marker is a prefix of it. *)
Lemma END_border_free d :
  0 < d < 7 -> isPrefix (drop d END) END = false.
Proof.
  intros Hd. destruct d as [|d]; [lia|].
  do 6 (destruct d as [|d]; [reflexivity|]). lia.
Qed.

(** In a framed message without an end marker of its own, the end marker
    occurs nowhere before the closing one. *)
Lemma END_first_in_frame message q :
  includes message END = false ->
  q < 9 + length message ->
  isPrefix END (drop q (messageWithMarker message)) = false.
Proof.
  intros Hno%includes_false Hq. unfold messageWithMarker.
  destruct (decide (q < 9)) as [Hlt|Hge]; [by apply END_not_within_START|].
  replace q with (length START + (q - 9)) by (simpl; lia).
  rewrite drop_app_add. set (q' := q - 9).
  rewrite drop_app_le by lia.
  apply not_true_is_false. intros Hocc.
  apply isPrefix_app_cases in Hocc as [Hin|(w & Hw & Hpre)].
  - rewrite (indexOf_none_inv _ _ Hno q') in Hin; [done | lia].
  - assert (length (drop q' message) + length w = 7) as Hlen
      by (rewrite <- length_app, <- Hw; done).
    assert (0 < length (drop q' message)) by (rewrite length_drop; lia).
    assert (w = drop (length (drop q' message)) END) as Hw'
      by (by rewrite Hw at 1; rewrite drop_app_length).
    destruct (decide (length w = 0)) as [Hz|Hnz].
    + apply nil_length_inv in Hz. rewrite Hz, app_nil_r in Hw.
      pose proof (isPrefix_refl END) as Hrefl. rewrite Hw in Hrefl at 2.
      rewrite (indexOf_none_inv _ _ Hno q') in Hrefl; [done | lia].
    + rewrite Hw', END_border_free in Hpre; [done | lia].
Qed.

Lemma unframe_messageWithMarker message :
  message <> [] ->
  includes message END = false ->
  unframe (messageWithMarker message) = Some message.
Proof.
  intros Hne Hno.
  assert (indexOf (messageWithMarker message) START = 0%Z) as Hs.
  { apply (indexOf_first_match _ _ 0); [lia | | lia]. reflexivity. }
  assert (indexOf (messageWithMarker message) END
          = Z.of_nat (9 + length message)) as He.
  { apply indexOf_first_match.
    - rewrite messageWithMarker_length. lia.
    - unfold messageWithMarker.
      replace (9 + length message) with (length START + length message)
        by done.
      rewrite drop_app_add, drop_app_length. apply isPrefix_refl.
    - intros q Hq. by apply END_first_in_frame. }
  unfold unframe.
  rewrite (proj2 (includes_true _ START)) by (rewrite Hs; lia).
  rewrite (proj2 (includes_true _ END)) by (rewrite He; lia).
  rewrite Hs, He. cbn [andb].
  destruct message as [|c message]; [done|].
  destruct (Z.ltb_spec (0 + 9) (Z.of_nat (9 + length (c :: message))))
    as [_|Hle]; [|simpl in Hle; lia].
  f_equal. change (0 + 9)%Z with (Z.of_nat 9).
  rewrite substring_range by lia.
  replace (9 + length (c :: message) - 9) with (length (c :: message)) by lia.
  unfold messageWithMarker.
  change 9 with (length START) at 1.
  by rewrite drop_app_length, take_app_length.
Qed.

(** A framed message cut short holds no end marker. *)
Lemma unframe_truncated message q :
  includes message END = false ->
  q < 16 + length message ->
  unframe (take q (messageWithMarker message)) = None.
Proof.
  intros Hno Hq.
  assert (includes (take q (messageWithMarker message)) END = false) as Hinc.
  { apply includes_false, indexOf_none. intros p Hp.
    apply not_true_is_false. intros Hocc.
    pose proof (isPrefix_length _ _ Hocc) as Hlen.
    rewrite length_drop, length_take, messageWithMarker_length in Hlen.
    simpl in Hlen.
    assert (isPrefix END (drop p (messageWithMarker message)) = true) as Hfull.
    { rewrite <- (take_drop q (messageWithMarker message)).
      rewrite drop_app_le by (rewrite length_take, messageWithMarker_length; lia).
      by apply isPrefix_app. }
    rewrite END_first_in_frame in Hfull; [done | done | lia]. }
  unfold unframe. rewrite Hinc. by rewrite andb_false_r.
Qed.

(** ** Scan order *)

Ltac divmod k :=
  pose proof (Nat.div_mod_eq k 3);
  pose proof (Nat.mod_upper_bound k 3 ltac:(lia)).

Lemma chanIndex_pixel p c : c < 3 -> chanIndex (3 * p + c) = p * 4 + c.
Proof.
  intros Hc. unfold chanIndex.
  rewrite <- (Nat.div_unique (3 * p + c) 3 p c) by lia.
  rewrite <- (Nat.mod_unique (3 * p + c) 3 p c) by lia.
  done.
Qed.

Lemma chanIndex_inj j j' : chanIndex j = chanIndex j' -> j = j'.
Proof. unfold chanIndex. divmod j. divmod j'. lia. Qed.

Lemma chanIndex_bound j n : chanIndex j < 4 * n <-> j < 3 * n.
Proof. unfold chanIndex. divmod j. lia. Qed.

Lemma chanIndex_of_position i :
  i mod 4 <> 3 -> chanIndex (i / 4 * 3 + i mod 4) = i.
Proof.
  intros Hi.
  pose proof (Nat.div_mod_eq i 4).
  pose proof (Nat.mod_upper_bound i 4 ltac:(lia)).
  replace (i / 4 * 3 + i mod 4) with (3 * (i / 4) + i mod 4) by lia.
  rewrite chanIndex_pixel by lia. lia.
Qed.

Lemma chanIndex_not_alpha j : chanIndex j mod 4 <> 3.
Proof.
  unfold chanIndex. divmod j.
  rewrite <- (Nat.mod_unique (j / 3 * 4 + j mod 3) 4 (j / 3) (j mod 3)); lia.
Qed.

(** ** Embedding *)

Lemma setLSB_length data i b : length (setLSB data i b) = length data.
Proof. apply length_insert. Qed.

Lemma writeBits_length bits t : forall k data,
  length (writeBits bits k t data) = length data.
Proof.
  induction t as [|t IH]; intros k data; cbn [writeBits]; [done|].
  by rewrite IH, setLSB_length.
Qed.

Lemma writeBits_app bits t1 t2 : forall k data,
  writeBits bits k (t1 + t2) data
  = writeBits bits (k + t1) t2 (writeBits bits k t1 data).
Proof.
  induction t1 as [|t1 IH]; intros k data; cbn [writeBits Nat.add].
  - by rewrite Nat.add_0_r.
  - rewrite IH. by replace (S k + t1) with (k + S t1) by lia.
Qed.

(** A position that is the channel of none of the bits written keeps its
    value. *)
Lemma writeBits_lookup_other bits t : forall k data i,
  (forall j, k <= j < k + t -> i <> chanIndex j) ->
  writeBits bits k t data !! i = data !! i.
Proof.
  induction t as [|t IH]; intros k data i Hi; cbn [writeBits]; [done|].
  rewrite IH by (intros j Hj; apply Hi; lia).
  unfold setLSB. apply list_lookup_insert_ne.
  intros Heq. apply (Hi k); [lia | done].
Qed.

(** The channel of a bit written holds its old value with the least
    significant bit replaced. *)
Lemma writeBits_lookup_written bits t : forall k data j d,
  k <= j < k + t ->
  data !! chanIndex j = Some d ->
  writeBits bits k t data !! chanIndex j
  = Some (N.lor (N.land d 254) (parseInt10 (bits !! j))).
Proof.
  induction t as [|t IH]; intros k data j d Hj Hd; [lia|].
  cbn [writeBits].
  destruct (decide (j = k)) as [->|Hne].
  - rewrite writeBits_lookup_other.
    + unfold setLSB. rewrite Hd. cbn [default].
      apply list_lookup_insert_eq. by eapply lookup_lt_Some.
    + intros j' Hj' Heq%chanIndex_inj. lia.
  - apply IH; [lia|].
    unfold setLSB. rewrite list_lookup_insert_ne; [done|].
    intros Heq%chanIndex_inj. lia.
Qed.

Lemma embedChannels_writeBits bits p : forall n c data,
  c + n <= 3 ->
  embedChannels bits p n c data (3 * p + c)
  = (writeBits bits (3 * p + c) (Nat.min n (length bits - (3 * p + c))) data,
     3 * p + c + Nat.min n (length bits - (3 * p + c))).
Proof.
  induction n as [|n IH]; intros c data Hc; cbn [embedChannels].
  - cbn [Nat.min writeBits]. by rewrite Nat.add_0_r.
  - destruct (Nat.ltb_spec (3 * p + c) (length bits)) as [Hlt|Hge].
    + replace (S (3 * p + c)) with (3 * p + S c) by lia.
      rewrite IH by lia.
      replace (Nat.min (S n) (length bits - (3 * p + c)))
        with (S (Nat.min n (length bits - (3 * p + S c)))) by lia.
      cbn [writeBits]. rewrite chanIndex_pixel by lia.
      replace (S (3 * p + c)) with (3 * p + S c) by lia.
      f_equal. lia.
    + replace (length bits - (3 * p + c)) with 0 by lia.
      rewrite Nat.min_0_r. cbn [writeBits]. by rewrite Nat.add_0_r.
Qed.

Lemma embedPixels_writeBits bits : forall n p data,
  embedPixels bits n p data (3 * p)
  = (writeBits bits (3 * p) (Nat.min (3 * n) (length bits - 3 * p)) data,
     3 * p + Nat.min (3 * n) (length bits - 3 * p)).
Proof.
  induction n as [|n IH]; intros p data; cbn [embedPixels].
  - rewrite Nat.mul_0_r. cbn [Nat.min writeBits]. by rewrite Nat.add_0_r.
  - pose proof (embedChannels_writeBits bits p 3 0 data) as Hch.
    rewrite !Nat.add_0_r in Hch. rewrite Hch by lia. clear Hch.
    destruct (Nat.leb_spec (length bits)
                (3 * p + Nat.min 3 (length bits - 3 * p))) as [Hle|Hgt].
    + f_equal; [f_equal|]; lia.
    + replace (Nat.min 3 (length bits - 3 * p)) with 3 by lia.
      replace (3 * p + 3) with (3 * S p) by lia.
      rewrite IH.
      replace (Nat.min (3 * S n) (length bits - 3 * p))
        with (3 + Nat.min (3 * n) (length bits - 3 * S p)) by lia.
      rewrite writeBits_app.
      replace (3 * p + 3) with (3 * S p) by lia.
      f_equal. lia.
Qed.

Lemma embed_writeBits data bits :
  embed data bits
  = writeBits bits 0 (Nat.min (3 * pixelCount data) (length bits)) data.
Proof.
  unfold embed.
  pose proof (embedPixels_writeBits bits (pixelCount data) 0 data) as H.
  rewrite Nat.mul_0_r, Nat.sub_0_r in H. by rewrite H.
Qed.

Lemma embed_length data bits : length (embed data bits) = length data.
Proof. by rewrite embed_writeBits, writeBits_length. Qed.

Lemma pixelCount_bound data i : i < length data -> i / 4 < pixelCount data.
Proof.
  intros Hi. unfold pixelCount.
  pose proof (Nat.div_mod_eq i 4).
  pose proof (Nat.mod_upper_bound i 4 ltac:(lia)).
  pose proof (Nat.div_mod_eq (length data + 3) 4).
  pose proof (Nat.mod_upper_bound (length data + 3) 4 ltac:(lia)).
  lia.
Qed.

Lemma pixelCount_exact data n : length data = 4 * n -> pixelCount data = n.
Proof.
  intros Hlen. unfold pixelCount. rewrite Hlen.
  symmetry. apply Nat.div_unique with 3; lia.
Qed.

(** ** Extraction *)

Lemma firstSome_app {A B} (f : A -> option B) l1 l2 :
  firstSome f (l1 ++ l2)
  = match firstSome f l1 with
    | Some y => Some y
    | None => firstSome f l2
    end.
Proof.
  induction l1 as [|x l1 IH]; cbn [firstSome app]; [done|].
  by destruct (f x).
Qed.

Lemma firstSome_ext {A B} (f g : A -> option B) l :
  Forall (fun x => f x = g x) l -> firstSome f l = firstSome g l.
Proof.
  induction 1 as [|x l Hx _ IH]; cbn [firstSome]; [done|].
  by rewrite Hx, IH.
Qed.

Lemma firstSome_none {A B} (f : A -> option B) l :
  Forall (fun x => f x = None) l -> firstSome f l = None.
Proof.
  induction 1 as [|x l Hx _ IH]; cbn [firstSome]; [done|].
  by rewrite Hx.
Qed.

(** The first candidate that succeeds decides the result. *)
Lemma firstSome_seq_hit {B} (f : nat -> option B) y : forall len a hit,
  a <= hit < a + len ->
  (forall j, a <= j < hit -> f j = None) ->
  f hit = Some y ->
  firstSome f (seq a len) = Some y.
Proof.
  induction len as [|len IH]; intros a hit Hhit Hbefore Hy; [lia|].
  cbn [seq firstSome].
  destruct (decide (hit = a)) as [->|Hne]; [by rewrite Hy|].
  rewrite Hbefore by lia. apply (IH (S a) hit); [lia | | done].
  intros j Hj. apply Hbefore. lia.
Qed.

Lemma lsbStream_length data k n : length (lsbStream data k n) = n.
Proof. unfold lsbStream. by rewrite length_fmap, length_seq. Qed.

Lemma lsbStream_snoc data j :
  lsbStream data 0 j ++ [lsbChar data (chanIndex j)] = lsbStream data 0 (S j).
Proof. unfold lsbStream. by rewrite seq_S, fmap_app. Qed.

Lemma lsbStream_app data k n1 n2 :
  lsbStream data k (n1 + n2) = lsbStream data k n1 ++ lsbStream data (k + n1) n2.
Proof. unfold lsbStream. by rewrite seq_app, fmap_app. Qed.

Lemma lsbStream_take data j n :
  j <= n -> take j (lsbStream data 0 n) = lsbStream data 0 j.
Proof.
  intros Hj. replace n with (j + (n - j)) by lia.
  rewrite lsbStream_app. apply take_app_length'.
  by rewrite lsbStream_length.
Qed.

Lemma lsbStream_ext data data' k n :
  (forall j, k <= j < k + n -> data' !! chanIndex j = data !! chanIndex j) ->
  lsbStream data' k n = lsbStream data k n.
Proof.
  intros Hsame. unfold lsbStream. apply Forall_fmap_ext_1, Forall_forall.
  intros j Hj%elem_of_seq. unfold lsbChar. by rewrite Hsame.
Qed.

Section Decode.
Variable data : list N.

(** The check made once [j] bits have been gathered. *)
Let check (j : nat) : option (list N) := checkpoint (lsbStream data 0 j).

Lemma decodeChannels_firstSome p : forall n c,
  c + n <= 3 ->
  decodeChannels data p n c (lsbStream data 0 (3 * p + c))
  = match firstSome check (seq (S (3 * p + c)) n) with
    | Some message => inr message
    | None => inl (lsbStream data 0 (3 * p + c + n))
    end.
Proof.
  induction n as [|n IH]; intros c Hc; cbn [decodeChannels seq firstSome].
  - by rewrite Nat.add_0_r.
  - rewrite <- chanIndex_pixel by lia. rewrite lsbStream_snoc.
    fold (check (S (3 * p + c))).
    destruct (check (S (3 * p + c))) as [message|]; [done|].
    replace (S (3 * p + c)) with (3 * p + S c) by lia.
    rewrite IH by lia.
    by replace (3 * p + S c + n) with (3 * p + c + S n) by lia.
Qed.

Lemma decodePixels_firstSome : forall n p,
  decodePixels data n p (lsbStream data 0 (3 * p))
  = DecResolved (firstSome check (seq (S (3 * p)) (3 * n))).
Proof.
  induction n as [|n IH]; intros p; cbn [decodePixels].
  - by rewrite Nat.mul_0_r.
  - pose proof (decodeChannels_firstSome p 3 0) as Hch.
    rewrite !Nat.add_0_r in Hch. rewrite Hch by lia. clear Hch.
    replace (3 * S n) with (3 + 3 * n) by lia.
    rewrite seq_app, firstSome_app.
    destruct (firstSome check (seq (S (3 * p)) 3)) as [message|]; [done|].
    replace (3 * p + 3) with (3 * S p) by lia. rewrite IH.
    by replace (S (3 * p) + 3) with (S (3 * S p)) by lia.
Qed.

(** [decodeMessage] returns the message of the first prefix of the
    stream of least significant bits that passes the check, within the
    pixels it scans. *)
Lemma decodeMessage_firstMatch :
  decodeMessage data
  = DecResolved (firstMatch (lsbStream data 0 (3 * maxPixels data))).
Proof.
  unfold decodeMessage.
  change (@nil bool) with (lsbStream data 0 (3 * 0)).
  rewrite decodePixels_firstSome. f_equal.
  unfold firstMatch. rewrite lsbStream_length.
  apply firstSome_ext, Forall_forall. intros j Hj%elem_of_seq.
  unfold check. by rewrite lsbStream_take by lia.
Qed.
End Decode.

Lemma scanCeiling_value : scanCeiling = N.to_nat 100000.
Proof. reflexivity. Qed.

Lemma checkpoint_short bits : length bits < 72 -> checkpoint bits = None.
Proof.
  intros Hlen. unfold checkpoint.
  destruct (Nat.leb_spec (8 * 9) (length bits)) as [Hle|_]; [lia|].
  by rewrite andb_false_r.
Qed.

(** ** What the extractor sees of an embedded frame *)

(** After embedding, the least significant bits of the first channels spell
    the bit sequence. *)
Lemma lsbStream_embed data bits :
  length data = 4 * pixelCount data ->
  length bits <= 3 * pixelCount data ->
  lsbStream (embed data bits) 0 (length bits) = bits.
Proof.
  intros Hlen Hfit. apply list_eq. intros j.
  unfold lsbStream. rewrite list_lookup_fmap.
  destruct (decide (j < length bits)) as [Hj|Hj].
  - rewrite lookup_seq_lt by done. cbn [fmap option_fmap option_map Nat.add].
    destruct (lookup_lt_is_Some_2 bits j Hj) as [b Hb].
    destruct (lookup_lt_is_Some_2 data (chanIndex j)) as [d Hd].
    { rewrite Hlen. apply chanIndex_bound. lia. }
    rewrite Hb. f_equal. unfold lsbChar.
    rewrite embed_writeBits.
    rewrite (writeBits_lookup_written _ _ _ _ j d) by (done || lia).
    rewrite Hb. cbn [default parseInt10]. apply lsb_written.
  - rewrite lookup_seq_ge by lia. symmetry. apply lookup_ge_None. lia.
Qed.

Lemma checkpoint_frame message :
  message <> [] -> latin1 message -> includes message END = false ->
  checkpoint (frame message) = Some message.
Proof.
  intros Hne Hlat Hno. unfold checkpoint.
  rewrite frame_length by done.
  replace (8 * (16 + length message) mod 8) with 0
    by (apply Nat.mod_unique with (16 + length message); lia).
  destruct (Nat.leb_spec (8 * 9) (8 * (16 + length message))) as [_|Hlt]; [|lia].
  cbn [Nat.eqb andb].
  rewrite frame_join, extractTextFromBinary_join by by apply latin1_markers.
  by apply unframe_messageWithMarker.
Qed.

Lemma checkpoint_frame_prefix message j :
  latin1 message -> includes message END = false ->
  j < length (frame message) ->
  checkpoint (take j (frame message)) = None.
Proof.
  intros Hlat Hno Hj. unfold checkpoint.
  rewrite length_take, Nat.min_l by lia.
  destruct (Nat.eqb_spec (j mod 8) 0) as [Hmod|Hmod]; [|done].
  cbn [andb]. destruct (8 * 9 <=? j); [|done].
  pose proof (Nat.div_mod_eq j 8) as Hdiv. rewrite Hmod, Nat.add_0_r in Hdiv.
  rewrite frame_length in Hj by done.
  rewrite Hdiv, frame_join, join_charBinary_take by by apply latin1_markers.
  rewrite extractTextFromBinary_join
    by (apply Forall_take; by apply latin1_markers).
  apply unframe_truncated; [done | lia].
Qed.

Lemma maxPixels_embed data bits : maxPixels (embed data bits) = maxPixels data.
Proof. unfold maxPixels, pixelCount. by rewrite embed_length. Qed.

Lemma decodeMessage_embed_frame data message :
  length data = 4 * pixelCount data ->
  message <> [] -> latin1 message -> includes message END = false ->
  length (frame message) <= 3 * maxPixels data ->
  decodeMessage (embed data (frame message)) = DecResolved (Some message).
Proof.
  intros Hlen Hne Hlat Hno Hfit.
  assert (length (frame message) <= 3 * pixelCount data) as Hfit'
    by (unfold maxPixels in Hfit; lia).
  rewrite decodeMessage_firstMatch, maxPixels_embed. f_equal.
  unfold firstMatch. rewrite lsbStream_length.
  assert (forall j, j <= length (frame message) ->
            take j (lsbStream (embed data (frame message)) 0 (3 * maxPixels data))
            = take j (frame message)) as Htake.
  { intros j Hj. rewrite lsbStream_take by lia.
    rewrite <- (lsbStream_embed data (frame message)) at 2 by done.
    by rewrite lsbStream_take. }
  apply (firstSome_seq_hit _ _ _ _ (length (frame message))).
  - rewrite frame_length in * by done. lia.
  - intros j Hj. rewrite Htake by lia. apply checkpoint_frame_prefix; (done || lia).
  - rewrite Htake, take_ge by done. by apply checkpoint_frame.
Qed.

(** Beyond the pixels scanned the end marker is never reached. *)
Lemma decodeMessage_embed_frame_cut data message :
  length data = 4 * pixelCount data ->
  latin1 message -> includes message END = false ->
  length (frame message) <= 3 * pixelCount data ->
  3 * maxPixels data < length (frame message) ->
  decodeMessage (embed data (frame message)) = DecResolved None.
Proof.
  intros Hlen Hlat Hno Hfit Hcut.
  rewrite decodeMessage_firstMatch, maxPixels_embed. f_equal.
  apply firstSome_none, Forall_forall. intros j Hj%elem_of_seq.
  rewrite lsbStream_length in Hj. rewrite lsbStream_take by lia.
  rewrite <- (lsbStream_take _ j (length (frame message))) by lia.
  rewrite lsbStream_embed by done.
  apply checkpoint_frame_prefix; (done || lia).
Qed.

(** The frame of the empty message is never recognised. *)
Example decodeMessage_empty_message :
  decodeMessage (embed (replicate 400 0%N) (frame [])) = DecResolved None.
Proof. by vm_compute. Qed.

(** ** Properties of the codec *)

Lemma encodeMessage_fits width height data message :
  (N.of_nat (length (frame message)) <= capacity width height)%N ->
  encodeMessage width height data message
  = (embed data (frame message), EncResolved (embed data (frame message))).
Proof.
  intros Hfit. unfold encodeMessage.
  by destruct (N.ltb_spec (capacity width height)
                 (N.of_nat (length (frame message)))); [lia|].
Qed.

Lemma encodeMessage_overflow width height data message :
  (capacity width height < N.of_nat (length (frame message)))%N ->
  encodeMessage width height data message = (data, EncRejected tooLarge).
Proof.
  intros Hbig. unfold encodeMessage.
  by destruct (N.ltb_spec (capacity width height)
                 (N.of_nat (length (frame message)))); [|lia].
Qed.

(** C1, as stated, fails: a message holding the end marker is cut at it
    (here on a 10 x 10 image of zero bytes). *)
Lemma roundtrip_cut_at_inner_marker :
  let data := replicate 400 0%N in
  let message := js "a<<END>>b" in
  length data = 4 * (10 * 10) /\
  (N.of_nat (length (frame message)) <= capacity 10 10)%N /\
  decodeMessage (embed data (frame message)) = DecResolved (Some (js "a")) /\
  decodeMessage (embed data (frame message)) <> DecResolved (Some message).
Proof.
  cbv zeta. split; [reflexivity|]. split; [by vm_compute|].
  split; [by vm_compute|]. by vm_compute.
Qed.

(** C1 (amended): for every pixel buffer of a [width] x [height] image and
    every non-empty message whose code units are all below 256, that does
    not contain the end marker, and whose framed bit length is at most the
    capacity [width * height * 3] and at most the 300,000 bits of the
    100,000 pixels the extractor scans, encoding succeeds and extracting
    from the embedded buffer yields exactly the message. *)
Theorem roundtrip width height data message :
  length data = 4 * N.to_nat (width * height) ->
  message <> [] ->
  latin1 message ->
  includes message END = false ->
  (N.of_nat (length (frame message)) <= capacity width height)%N ->
  length (frame message) <= 3 * scanCeiling ->
  encodeMessage width height data message
  = (embed data (frame message), EncResolved (embed data (frame message)))
  /\ decodeMessage (embed data (frame message)) = DecResolved (Some message).
Proof.
  intros Hlen Hne Hlat Hno Hfit Hceil.
  split; [by apply encodeMessage_fits|].
  pose proof (pixelCount_exact _ _ Hlen) as Hpix.
  apply decodeMessage_embed_frame; try done.
  - by rewrite Hpix.
  - unfold maxPixels, capacity in *. rewrite Hpix. lia.
Qed.

Lemma roundtrip_witness :
  decodeMessage (embed (replicate 400 7%N) (frame (js "hello")))
  = DecResolved (Some (js "hello")).
Proof.
  apply (roundtrip 10 10 (replicate 400 7%N) (js "hello")).
  - reflexivity.
  - discriminate.
  - unfold latin1. vm_compute. repeat constructor.
  - vm_compute. reflexivity.
  - vm_compute. discriminate.
  - rewrite scanCeiling_value.
    assert (length (frame (js "hello")) = 168) as -> by (vm_compute; reflexivity).
    lia.
Defined.

Lemma asciiText_latin1 s : asciiText s -> latin1 s.
Proof. intros Hs. eapply Forall_impl; [done|]. intros c Hc. cbn beta in *. lia. Qed.

(** C2, as stated, fails: a message of 21 ASCII characters is accepted on a
    10 x 10 image (the two markers take 16 bytes, not 17). *)
Lemma capacity_10x10_accepts_21 :
  let data := replicate 400 0%N in
  let message := js "aaaaaaaaaaaaaaaaaaaaa" in
  length message = 21 /\ asciiText message /\
  snd (encodeMessage 10 10 data message)
  = EncResolved (embed data (frame message)).
Proof.
  cbv zeta. split; [reflexivity|]. split.
  - unfold asciiText. vm_compute. repeat constructor.
  - by vm_compute.
Qed.

(** C2 (amended): a message whose framed bits exactly fill the capacity is
    encoded, and one whose framed bits exceed it by one bit is rejected with
    the buffer untouched; on a 10 x 10 image (capacity 300 bits) the markers
    take 16 bytes, so a message of 21 ASCII characters is encoded and one of
    22 ASCII characters is rejected. *)
Theorem capacity_boundary width height data message :
  (N.of_nat (length (frame message)) = capacity width height ->
   encodeMessage width height data message
   = (embed data (frame message), EncResolved (embed data (frame message))))
  /\ (N.of_nat (length (frame message)) = (capacity width height + 1)%N ->
      encodeMessage width height data message = (data, EncRejected tooLarge))
  /\ (asciiText message -> length message = 21 ->
      encodeMessage 10 10 data message
      = (embed data (frame message), EncResolved (embed data (frame message))))
  /\ (asciiText message -> length message = 22 ->
      encodeMessage 10 10 data message = (data, EncRejected tooLarge)).
Proof.
  repeat split.
  - intros Hfill. apply encodeMessage_fits. lia.
  - intros Hover. apply encodeMessage_overflow. lia.
  - intros Hascii%asciiText_latin1 Hlen. apply encodeMessage_fits.
    rewrite frame_length, Hlen by done. by vm_compute.
  - intros Hascii%asciiText_latin1 Hlen. apply encodeMessage_overflow.
    rewrite frame_length, Hlen by done. by vm_compute.
Qed.

Lemma capacity_boundary_witness :
  (encodeMessage 8 6 (replicate 192 0%N) (js "ab")
   = (embed (replicate 192 0%N) (frame (js "ab")),
      EncResolved (embed (replicate 192 0%N) (frame (js "ab")))))
  /\ encodeMessage 9 5 (replicate 180 0%N) (js "a")
     = (replicate 180 0%N, EncRejected tooLarge)
  /\ (encodeMessage 10 10 (replicate 400 0%N) (js "aaaaaaaaaaaaaaaaaaaaa")
      = (embed (replicate 400 0%N) (frame (js "aaaaaaaaaaaaaaaaaaaaa")),
         EncResolved (embed (replicate 400 0%N) (frame (js "aaaaaaaaaaaaaaaaaaaaa")))))
  /\ encodeMessage 10 10 (replicate 400 0%N) (js "aaaaaaaaaaaaaaaaaaaaaa")
     = (replicate 400 0%N, EncRejected tooLarge).
Proof.
  split; [|split; [|split]].
  - apply (proj1 (capacity_boundary 8 6 (replicate 192 0%N) (js "ab"))).
    vm_compute. reflexivity.
  - apply (proj1 (proj2 (capacity_boundary 9 5 (replicate 180 0%N) (js "a")))).
    vm_compute. reflexivity.
  - apply (proj1 (proj2 (proj2 (capacity_boundary 10 10 (replicate 400 0%N)
                                  (js "aaaaaaaaaaaaaaaaaaaaa"))))).
    + unfold asciiText. vm_compute. repeat constructor.
    + vm_compute. reflexivity.
  - apply (proj2 (proj2 (proj2 (capacity_boundary 10 10 (replicate 400 0%N)
                                  (js "aaaaaaaaaaaaaaaaaaaaaa"))))).
    + unfold asciiText. vm_compute. repeat constructor.
    + vm_compute. reflexivity.
Defined.

(** C3: framing must give every character one byte, its code unit modulo
    256, as eight bits. The code does not: the code unit 256 ("Ā") is
    written with its nine binary digits, where the byte 0 is expected. *)
Theorem frame_wide_code_unit :
  charBinary 256 = [true; false; false; false; false; false; false; false; false]
  /\ byteBits (256 mod 256)
     = [false; false; false; false; false; false; false; false]
  /\ frame [256%N] <> frame_spec [256%N].
Proof. split; [reflexivity|]. split; [reflexivity|]. by vm_compute. Qed.

(** C4: the framed bit sequence must have a length that is a multiple of 8.
    The code misses it on the message "Ā" (code unit 256), framed on 137
    bits. *)
Theorem frame_length_not_multiple_of_8 :
  length (frame [256%N]) = 137 /\ length (frame [256%N]) mod 8 = 1.
Proof. split; reflexivity. Qed.

(** When every code unit is below 256 the frame is made of whole bytes. *)
Lemma frame_latin1_multiple_of_8 message :
  latin1 message -> length (frame message) mod 8 = 0.
Proof.
  intros Hlat. rewrite frame_length by done.
  symmetry. apply Nat.mod_unique with (16 + length message); lia.
Qed.

(** C5, as stated, fails: with an end marker ahead of the start marker the
    code compares the position of that first end marker, and finds nothing,
    where the search worded by the specification returns "hello". *)
Lemma unframe_end_marker_ahead :
  let text := js "<<END>>x<<START>>hello<<END>>" in
  unframe_spec text = Some (js "hello") /\ unframe text = None.
Proof. split; by vm_compute. Qed.

(** C5 (amended): [unframe] locates the first occurrence of the start marker
    and the first occurrence of the end marker in the whole text (not only
    after the start marker); it returns a message exactly when both are
    found and the end marker begins beyond the end of the start marker, and
    the message is then the text strictly between the two markers; in every
    other case it returns not-found. Matching is exact. *)
Theorem unframe_first_occurrences text :
  (forall message,
     unframe text = Some message <->
     exists s e,
       firstOccurrence START text s /\ firstOccurrence END text e /\
       s + 9 < e /\ message = take (e - (s + 9)) (drop (s + 9) text))
  /\ (unframe text = None <->
      ~ exists s e,
          firstOccurrence START text s /\ firstOccurrence END text e /\
          s + 9 < e).
Proof.
  assert (forall message,
     unframe text = Some message <->
     exists s e,
       firstOccurrence START text s /\ firstOccurrence END text e /\
       s + 9 < e /\ message = take (e - (s + 9)) (drop (s + 9) text)) as Hsome.
  { intros message. split.
    - unfold unframe.
      destruct (includes text START) eqn:Hs; [|done].
      destruct (includes text END) eqn:He; [|done].
      apply includes_true, indexOf_some_inv in Hs as (s & Hs & _).
      apply includes_true, indexOf_some_inv in He as (e & He & _).
      rewrite Hs, He. cbn [andb].
      destruct (Z.ltb_spec (Z.of_nat s + 9) (Z.of_nat e)) as [Hlt|_]; [|done].
      intros [= <-]. exists s, e.
      repeat split; try (by apply indexOf_firstOccurrence); [lia|].
      replace (Z.of_nat s + 9)%Z with (Z.of_nat (s + 9)) by lia.
      apply substring_range. lia.
    - intros (s & e & Hs%indexOf_firstOccurrence & He%indexOf_firstOccurrence
              & Hlt & ->).
      unfold unframe.
      rewrite (proj2 (includes_true _ START)) by (rewrite Hs; lia).
      rewrite (proj2 (includes_true _ END)) by (rewrite He; lia).
      rewrite Hs, He. cbn [andb].
      destruct (Z.ltb_spec (Z.of_nat s + 9) (Z.of_nat e)) as [_|Hge]; [|lia].
      f_equal.
      replace (Z.of_nat s + 9)%Z with (Z.of_nat (s + 9)) by lia.
      apply substring_range. lia. }
  split; [done|]. split.
  - intros Hnone (s & e & Hs & He & Hlt).
    assert (unframe text = Some (take (e - (s + 9)) (drop (s + 9) text))) as H
      by (apply Hsome; by exists s, e).
    by rewrite Hnone in H.
  - intros Hno. destruct (unframe text) as [message|] eqn:Hu; [|done].
    destruct (proj1 (Hsome message) eq_refl) as (s & e & Hs & He & Hlt & _).
    destruct Hno. by exists s, e.
Qed.

(** C6: a message whose framed bit length exceeds [width * height * 3] is
    rejected, not truncated, and the rejection comes before any write: the
    pixel buffer is left as it was. *)
Theorem capacity_gate width height data message :
  (capacity width height < N.of_nat (length (frame message)))%N ->
  encodeMessage width height data message = (data, EncRejected tooLarge).
Proof. apply encodeMessage_overflow. Qed.

Lemma capacity_gate_witness :
  encodeMessage 10 10 (replicate 400 9%N) (js "aaaaaaaaaaaaaaaaaaaaaa")
  = (replicate 400 9%N, EncRejected tooLarge).
Proof.
  apply (capacity_gate 10 10 (replicate 400 9%N) (js "aaaaaaaaaaaaaaaaaaaaaa")).
  vm_compute. reflexivity.
Defined.

(** Whenever encoding is rejected the buffer is unchanged. *)
Lemma encodeMessage_rejected_unchanged width height data message error :
  snd (encodeMessage width height data message) = EncRejected error ->
  fst (encodeMessage width height data message) = data
  /\ (capacity width height < N.of_nat (length (frame message)))%N.
Proof.
  unfold encodeMessage.
  destruct (N.ltb_spec (capacity width height)
              (N.of_nat (length (frame message)))); [done|].
  cbn [snd]. discriminate.
Qed.

(** C7: in a buffer of bytes, embedding a bit sequence keeps the length of
    the buffer, changes nothing but the least significant bit of a channel
    byte, leaves every alpha byte as it was, and leaves every colour channel
    beyond the ones consumed by the bits (the first [length bits] in scan
    order) with its exact original value. *)
Theorem embed_frame_condition data bits :
  byteBuffer data ->
  length (embed data bits) = length data
  /\ forall i d,
       data !! i = Some d ->
       exists d',
         embed data bits !! i = Some d'
         /\ N.div2 d' = N.div2 d
         /\ (i mod 4 = 3 -> d' = d)
         /\ (length bits <= i / 4 * 3 + i mod 4 -> d' = d).
Proof.
  intros Hbytes. split; [apply embed_length|].
  intros i d Hd. rewrite embed_writeBits.
  set (t := Nat.min (3 * pixelCount data) (length bits)).
  pose proof (lookup_lt_Some _ _ _ Hd) as Hi.
  pose proof (pixelCount_bound _ _ Hi) as Hpix.
  pose proof (Nat.mod_upper_bound i 4 ltac:(lia)) as Hmod.
  destruct (decide (i mod 4 <> 3 /\ i / 4 * 3 + i mod 4 < length bits))
    as [[Hrgb Hin]|Hout].
  - exists (N.lor (N.land d 254) (parseInt10 (bits !! (i / 4 * 3 + i mod 4)))).
    destruct (lookup_lt_is_Some_2 bits _ Hin) as [b Hb].
    repeat split.
    + rewrite <- (chanIndex_of_position i) at 1 by done.
      apply writeBits_lookup_written; [unfold t; lia|].
      by rewrite chanIndex_of_position.
    + rewrite Hb. cbn [parseInt10]. apply high_bits_kept.
      eapply (Forall_forall (fun d => (d < 256)%N) data); [done|].
      by eapply list_elem_of_lookup_2.
    + done.
    + lia.
  - exists d. repeat split; try done.
    rewrite writeBits_lookup_other; [done|].
    intros j Hj ->. apply Hout. split; [apply chanIndex_not_alpha|].
    assert (i_eq : chanIndex j / 4 * 3 + chanIndex j mod 4 = j).
    { apply chanIndex_inj. apply chanIndex_of_position, chanIndex_not_alpha. }
    rewrite i_eq. unfold t in Hj. lia.
Qed.

Lemma embed_frame_condition_witness :
  exists d',
    embed [254; 7; 8; 255; 3; 3; 3; 3]%N [true; false] !! 0 = Some d'
    /\ N.div2 d' = N.div2 254
    /\ (0 mod 4 = 3 -> d' = 254%N)
    /\ (length [true; false] <= 0 / 4 * 3 + 0 mod 4 -> d' = 254%N).
Proof.
  apply (embed_frame_condition [254; 7; 8; 255; 3; 3; 3; 3]%N [true; false]).
  - unfold byteBuffer. repeat constructor.
  - reflexivity.
Defined.

Lemma firstSome_none_iff {A B} (f : A -> option B) l :
  firstSome f l = None <-> Forall (fun x => f x = None) l.
Proof.
  split; [|apply firstSome_none].
  induction l as [|x l IH]; cbn [firstSome]; [by constructor|].
  destruct (f x) eqn:Hx; [done|]. intros Hl. constructor; auto.
Qed.

Lemma maxPixels_take data :
  maxPixels (take (4 * scanCeiling) data) = maxPixels data.
Proof.
  destruct (decide (length data <= 4 * scanCeiling)) as [Hle|Hgt].
  - by rewrite take_ge.
  - unfold maxPixels.
    rewrite (pixelCount_exact (take (4 * scanCeiling) data) scanCeiling)
      by (rewrite length_take; lia).
    assert (scanCeiling <= pixelCount data); [|lia].
    unfold pixelCount. apply Nat.div_le_lower_bound; lia.
Qed.

Lemma lsbStream_take_buffer data n m :
  n <= m -> lsbStream (take (4 * m) data) 0 (3 * n) = lsbStream data 0 (3 * n).
Proof.
  intros Hn. apply lsbStream_ext. intros j Hj. apply lookup_take_lt.
  assert (chanIndex j < 4 * n) by (apply chanIndex_bound; lia). lia.
Qed.

(** C8: extraction reads no more than the first 100,000 pixels, whatever the
    size of the image; it always resolves, never rejects: with the message
    of the first check that succeeds within the pixels scanned, and with
    not-found when none does, be it that the buffer ended or that the
    ceiling was reached. *)
Theorem decodeMessage_bounded_total data :
  N.of_nat scanCeiling = 100000%N
  /\ maxPixels data <= scanCeiling
  /\ decodeMessage data = decodeMessage (take (4 * scanCeiling) data)
  /\ decodeMessage data
     = DecResolved (firstMatch (lsbStream data 0 (3 * maxPixels data)))
  /\ (firstMatch (lsbStream data 0 (3 * maxPixels data)) = None <->
      forall j, j <= 3 * maxPixels data ->
                checkpoint (lsbStream data 0 j) = None).
Proof.
  split; [rewrite scanCeiling_value; lia|].
  assert (maxPixels data <= scanCeiling) as Hmax by (unfold maxPixels; lia).
  split; [done|].
  split; [|split; [apply decodeMessage_firstMatch|]].
  - rewrite !decodeMessage_firstMatch, maxPixels_take. do 2 f_equal.
    symmetry. by apply lsbStream_take_buffer.
  - unfold firstMatch. rewrite lsbStream_length, firstSome_none_iff, Forall_forall.
    split.
    + intros Hnone j Hj.
      destruct (decide (j = 0)) as [->|Hpos];
        [apply checkpoint_short; rewrite lsbStream_length; lia|].
      rewrite <- (lsbStream_take data j (3 * maxPixels data)) by done.
      apply Hnone, elem_of_seq. lia.
    + intros Hall j Hj%elem_of_seq. rewrite lsbStream_take by lia.
      apply Hall. lia.
Qed.

(** An image that carries no frame: every byte zero. *)
Example decodeMessage_blank :
  decodeMessage (replicate 400 0%N) = DecResolved None.
Proof. by vm_compute. Qed.

(** C9, as stated, fails: the empty message holds neither marker, yet
    unframing its frame returns not-found, because the end marker does not
    begin beyond the end of the start marker. *)
Lemma unframe_empty_message :
  includes [] START = false /\ includes [] END = false /\
  unframe (messageWithMarker []) = None.
Proof. repeat split. Qed.

(** C9 (amended): for every non-empty message that contains neither marker,
    unframing the text [<<START>>message<<END>>] returns the message. *)
Theorem unframe_frame_text message :
  message <> [] ->
  includes message START = false ->
  includes message END = false ->
  unframe (messageWithMarker message) = Some message.
Proof. intros Hne _ Hno. by apply unframe_messageWithMarker. Qed.

Lemma unframe_frame_text_witness :
  unframe (messageWithMarker (js "hello")) = Some (js "hello").
Proof.
  apply (unframe_frame_text (js "hello")).
  - discriminate.
  - vm_compute. reflexivity.
  - vm_compute. reflexivity.
Defined.

(** C10: a buffer of fewer than 24 pixels gives fewer than 72 bits, so no
    check is ever made and extraction returns not-found, whatever the
    bytes. *)
Theorem decodeMessage_small_buffer data :
  pixelCount data < 24 -> decodeMessage data = DecResolved None.
Proof.
  intros Hsmall. rewrite decodeMessage_firstMatch. f_equal.
  apply firstSome_none, Forall_forall. intros j Hj%elem_of_seq.
  rewrite lsbStream_length in Hj.
  apply checkpoint_short. rewrite length_take, lsbStream_length.
  unfold maxPixels in *. lia.
Qed.

Lemma decodeMessage_small_buffer_witness :
  decodeMessage (replicate 92 255%N) = DecResolved None.
Proof.
  apply (decodeMessage_small_buffer (replicate 92 255%N)).
  vm_compute. lia.
Defined.

(** ** Further properties of the embedding loop *)

(** Scan-order number of the colour channel stored at position [i]. *)
Lemma chanIndex_position j : chanIndex j / 4 * 3 + chanIndex j mod 4 = j.
Proof. apply chanIndex_inj, chanIndex_of_position, chanIndex_not_alpha. Qed.

(** What [embed] leaves at every position of the buffer. *)
Lemma embed_lookup data bits i :
  embed data bits !! i
  = if decide (i mod 4 <> 3 /\ i / 4 * 3 + i mod 4 < length bits)
    then (fun d => N.lor (N.land d 254)
                     (parseInt10 (bits !! (i / 4 * 3 + i mod 4))))
           <$> data !! i
    else data !! i.
Proof.
  rewrite embed_writeBits.
  set (t := Nat.min (3 * pixelCount data) (length bits)).
  destruct (data !! i) as [d|] eqn:Hd.
  - pose proof (lookup_lt_Some _ _ _ Hd) as Hi.
    pose proof (pixelCount_bound _ _ Hi) as Hpix.
    pose proof (Nat.mod_upper_bound i 4 ltac:(lia)) as Hmod.
    destruct (decide _) as [[Hrgb Hin]|Hout].
    + rewrite <- (chanIndex_of_position i) at 1 by done.
      erewrite writeBits_lookup_written; [done|unfold t; lia|].
      by rewrite chanIndex_of_position.
    + rewrite writeBits_lookup_other; [done|].
      intros j Hj ->. apply Hout. split; [apply chanIndex_not_alpha|].
      rewrite chanIndex_position. unfold t in Hj. lia.
  - assert (writeBits bits 0 t data !! i = None) as ->.
    { apply lookup_ge_None. rewrite writeBits_length.
      by apply lookup_ge_None. }
    by destruct (decide _).
Qed.

Lemma setLSB_twice d (b : bool) :
  N.lor (N.land (N.lor (N.land d 254) (N.b2n b)) 254) (N.b2n b)
  = N.lor (N.land d 254) (N.b2n b).
Proof.
  apply N.bits_inj. intros n.
  rewrite !N.lor_spec, !N.land_spec, !N.lor_spec, !N.land_spec.
  destruct (N.testbit d n), (N.testbit 254 n), (N.testbit (N.b2n b) n); done.
Qed.

(** X1: once a bit sequence that fits the image is embedded, the least
    significant bit of the [k]-th colour channel in scan order is the
    [k]-th bit, for every [k] below the length of the sequence. *)
Theorem embed_then_read_bit data bits k b :
  length data = 4 * pixelCount data ->
  length bits <= 3 * pixelCount data ->
  bits !! k = Some b ->
  lsbChar (embed data bits) (k / 3 * 4 + k mod 3) = b.
Proof.
  intros Hlen Hfit Hb.
  pose proof (lookup_lt_Some _ _ _ Hb) as Hk.
  fold (chanIndex k). unfold lsbChar.
  rewrite embed_lookup, chanIndex_position.
  destruct (decide _) as [_|Hout];
    [|destruct Hout; split; [apply chanIndex_not_alpha | done]].
  destruct (lookup_lt_is_Some_2 data (chanIndex k)) as [d Hd].
  { rewrite Hlen. apply chanIndex_bound. lia. }
  rewrite Hd, Hb. cbn [fmap option_fmap option_map default parseInt10].
  apply lsb_written.
Qed.

Lemma embed_then_read_bit_witness :
  lsbChar (embed [254; 7; 8; 255; 3; 3; 3; 3]%N [true; false; true; true])
    (3 / 3 * 4 + 3 mod 3) = true.
Proof.
  apply (embed_then_read_bit [254; 7; 8; 255; 3; 3; 3; 3]%N
           [true; false; true; true] 3 true); reflexivity || (vm_compute; lia).
Defined.

(** X2: embedding the same bits a second time changes nothing. *)
Theorem embed_idempotent data bits :
  embed (embed data bits) bits = embed data bits.
Proof.
  apply list_eq. intros i.
  rewrite (embed_lookup (embed data bits)).
  destruct (decide _) as [[Hrgb Hin]|Hout]; [|done].
  rewrite embed_lookup.
  destruct (decide _) as [_|Hout]; [|by destruct Hout].
  destruct (data !! i) as [d|]; [|done].
  destruct (lookup_lt_is_Some_2 bits _ Hin) as [b ->].
  cbn [fmap option_fmap option_map parseInt10]. f_equal. apply setLSB_twice.
Qed.

(** X3: embedding keeps a buffer of bytes a buffer of bytes: no value it
    stores needs clamping. *)
Theorem embed_byteBuffer data bits :
  byteBuffer data -> byteBuffer (embed data bits).
Proof.
  intros Hbytes. apply Forall_lookup. intros i d' Hd'.
  rewrite embed_lookup in Hd'.
  destruct (decide _) as [[Hrgb Hin]|Hout].
  - destruct (data !! i) as [d|]; [|done].
    destruct (lookup_lt_is_Some_2 bits _ Hin) as [b Hb].
    rewrite Hb in Hd'. injection Hd' as <-. apply setLSB_value_byte.
  - exact (Forall_lookup_1 (fun d => (d < 256)%N) data i d' Hbytes Hd').
Qed.

Lemma embed_byteBuffer_witness :
  byteBuffer (embed [254; 7; 8; 255; 3; 3; 3; 3]%N [true; false; true; true]).
Proof.
  apply (embed_byteBuffer [254; 7; 8; 255; 3; 3; 3; 3]%N).
  unfold byteBuffer. repeat constructor.
Defined.

(** X4: [embed] itself does not check the capacity: bits beyond the three
    colour channels of the last pixel are dropped without notice. *)
Theorem embed_drops_excess_bits data bits :
  embed data bits = embed data (take (3 * pixelCount data) bits).
Proof.
  apply list_eq. intros i. rewrite !embed_lookup.
  destruct (data !! i) as [d|] eqn:Hd; [|by do 2 destruct (decide _)].
  pose proof (lookup_lt_Some _ _ _ Hd) as Hi.
  pose proof (pixelCount_bound _ _ Hi) as Hpix.
  pose proof (Nat.mod_upper_bound i 4 ltac:(lia)) as Hmod.
  rewrite length_take.
  destruct (decide (i mod 4 <> 3 /\ i / 4 * 3 + i mod 4 < length bits))
    as [[Hrgb Hin]|Hout].
  - destruct (decide _) as [_|Hout]; [|destruct Hout; split; [done|lia]].
    by rewrite lookup_take_lt by lia.
  - destruct (decide _) as [[Hrgb Hin]|_]; [|done].
    destruct Hout. split; [done|lia].
Qed.

(** ** Further properties of the text decoding *)

Lemma parseInt2_snoc l (b : bool) :
  parseInt2 (l ++ [b]) = (2 * parseInt2 l + N.b2n b)%N.
Proof. unfold parseInt2. by rewrite fold_left_app. Qed.

Lemma parseInt2_bound l : (parseInt2 l < 2 ^ N.of_nat (length l))%N.
Proof.
  induction l as [|b l IH] using rev_ind; [done|].
  rewrite parseInt2_snoc, length_app. cbn [length].
  replace (N.of_nat (length l + 1)) with (N.succ (N.of_nat (length l))) by lia.
  rewrite N.pow_succ_r'. destruct b; cbn [N.b2n]; lia.
Qed.

Lemma parseInt2_byte l : length l <= 8 -> (parseInt2 l < 256)%N.
Proof.
  intros Hl. eapply N.lt_le_trans; [apply parseInt2_bound|].
  change 256%N with (2 ^ 8)%N. apply N.pow_le_mono_r; lia.
Qed.

Lemma extractLoop_groups binary : forall n j text,
  j + n = (length binary + 7) / 8 ->
  extractLoop binary n (8 * j) text
  = text ++ ((fun q => parseInt2 (take 8 (drop (8 * q) binary)))
               <$> seq j (length binary / 8 - j)).
Proof.
  pose proof (Nat.div_mod_eq (length binary) 8) as Hf.
  pose proof (Nat.mod_upper_bound (length binary) 8 ltac:(lia)) as Hfr.
  pose proof (Nat.div_mod_eq (length binary + 7) 8) as Hc.
  pose proof (Nat.mod_upper_bound (length binary + 7) 8 ltac:(lia)) as Hcr.
  induction n as [|n IH]; intros j text Hj.
  - replace (length binary / 8 - j) with 0 by lia. by rewrite app_nil_r.
  - cbn [extractLoop].
    replace (Z.of_nat (8 * j) + 8)%Z with (Z.of_nat (8 * j + 8)) by lia.
    rewrite substring_range by lia.
    replace (8 * j + 8 - 8 * j) with 8 by lia.
    rewrite length_take, length_drop.
    replace (8 * j + 8) with (8 * S j) by lia.
    destruct (decide (j < length binary / 8)) as [Hlt|Hge].
    + replace (Nat.min 8 (length binary - 8 * j)) with 8 by lia.
      cbn [Nat.eqb]. rewrite IH by lia.
      replace (length binary / 8 - j) with (S (length binary / 8 - S j)) by lia.
      cbn [seq fmap list_fmap]. by rewrite <- app_assoc.
    + destruct (Nat.eqb_spec (Nat.min 8 (length binary - 8 * j)) 8) as [Heq|_];
        [lia|].
      rewrite IH by lia.
      replace (length binary / 8 - S j) with 0 by lia.
      by replace (length binary / 8 - j) with 0 by lia.
Qed.

Lemma extractTextFromBinary_fmap binary :
  extractTextFromBinary binary
  = (fun q => parseInt2 (take 8 (drop (8 * q) binary)))
      <$> seq 0 (length binary / 8).
Proof.
  unfold extractTextFromBinary.
  rewrite (extractLoop_groups binary _ 0) by lia. by rewrite Nat.sub_0_r.
Qed.

Lemma extractTextFromBinary_length binary :
  length (extractTextFromBinary binary) = length binary / 8.
Proof. by rewrite extractTextFromBinary_fmap, length_fmap, length_seq. Qed.

Lemma extractTextFromBinary_latin1 binary :
  latin1 (extractTextFromBinary binary).
Proof.
  rewrite extractTextFromBinary_fmap.
  unfold latin1. apply Forall_fmap, Forall_forall. intros q _.
  apply parseInt2_byte. rewrite length_take. lia.
Qed.

(** X5: [extractTextFromBinary] gives one character for each complete group
    of 8 bits, the number the group spells in binary, and drops an
    incomplete last group; every character code is below 256. *)
Theorem extractTextFromBinary_groups binary :
  extractTextFromBinary binary
  = (fun q => parseInt2 (take 8 (drop (8 * q) binary)))
      <$> seq 0 (length binary / 8)
  /\ length (extractTextFromBinary binary) = length binary / 8
  /\ latin1 (extractTextFromBinary binary).
Proof.
  split; [apply extractTextFromBinary_fmap|].
  split; [apply extractTextFromBinary_length|apply extractTextFromBinary_latin1].
Qed.

(** ** Further properties of framing and of the capacity check *)

Lemma pos_digits_length p : length (pos_digits p) = Pos.size_nat p.
Proof.
  induction p as [p IH|p IH|]; cbn [pos_digits Pos.size_nat]; [| |done];
    rewrite length_app, IH; cbn [length]; lia.
Qed.

Lemma charBinary_length_ge c : 8 <= length (charBinary c).
Proof. unfold charBinary, padStart8. rewrite length_app, length_replicate. lia. Qed.

Lemma charBinary_wide c : (256 <= c)%N -> 9 <= length (charBinary c).
Proof.
  intros Hc. unfold charBinary, padStart8.
  rewrite length_app, length_replicate.
  destruct c as [|p]; [lia|]. cbn [toString2]. rewrite pos_digits_length.
  assert (Pos.size_nat 256%positive <= Pos.size_nat p) as Hsize.
  { destruct (Pos.eq_dec p 256%positive) as [->|Hne]; [done|].
    apply Pos.size_nat_monotone. lia. }
  change (Pos.size_nat 256%positive) with 9 in Hsize. lia.
Qed.

Lemma join_charBinary_length_ge s :
  8 * length s <= length (mjoin (charBinary <$> s)).
Proof.
  induction s as [|c s IH]; [done|].
  rewrite join_charBinary_cons, length_app. cbn [length].
  pose proof (charBinary_length_ge c). lia.
Qed.

Lemma join_charBinary_length_latin1 s :
  length (mjoin (charBinary <$> s)) = 8 * length s -> latin1 s.
Proof.
  induction s as [|c s IH]; [constructor|].
  rewrite join_charBinary_cons, length_app. cbn [length]. intros Hlen.
  pose proof (charBinary_length_ge c).
  pose proof (join_charBinary_length_ge s).
  constructor; [|apply IH; lia].
  destruct (N.lt_ge_cases c 256) as [Hc|Hc]; [done|].
  apply charBinary_wide in Hc. lia.
Qed.

(** X6: the frame of a message of [n] characters has at least [8 * (16 + n)]
    bits, and exactly that many if and only if every code unit of the
    message is below 256. *)
Theorem frame_length_bytes message :
  8 * (16 + length message) <= length (frame message)
  /\ (length (frame message) = 8 * (16 + length message) <-> latin1 message).
Proof.
  rewrite frame_join, <- messageWithMarker_length. split.
  - apply join_charBinary_length_ge.
  - split.
    + intros Hlat%join_charBinary_length_latin1.
      unfold messageWithMarker in Hlat.
      by apply Forall_app in Hlat as [_ [Hm _]%Forall_app].
    + intros Hlat. by apply join_charBinary_length, latin1_markers.
Qed.

(** X7: an image of fewer than 43 pixels (capacity below 128 bits) cannot
    even hold the two markers: every message, the empty one included, is
    rejected and the buffer is left as it was. *)
Theorem encodeMessage_tiny_image width height data message :
  (capacity width height < 128)%N ->
  encodeMessage width height data message = (data, EncRejected tooLarge).
Proof.
  intros Htiny. apply encodeMessage_overflow.
  pose proof (join_charBinary_length_ge (messageWithMarker message)) as Hge.
  rewrite <- frame_join, messageWithMarker_length in Hge. lia.
Qed.

Lemma encodeMessage_tiny_image_witness :
  encodeMessage 6 7 (replicate 168 0%N) (js "a")
  = (replicate 168 0%N, EncRejected tooLarge).
Proof.
  apply (encodeMessage_tiny_image 6 7 (replicate 168 0%N) (js "a")).
  vm_compute. reflexivity.
Defined.

(** X8: a message whose code units are all below 256 is accepted exactly
    when its length plus the 16 characters of the markers is at most
    [width * height * 3 / 8] (rounded down); otherwise it is rejected. *)
Theorem encodeMessage_accepts_iff width height data message :
  latin1 message ->
  (snd (encodeMessage width height data message)
   = EncResolved (embed data (frame message))
   <-> (N.of_nat (16 + length message) <= capacity width height / 8)%N)
  /\ (snd (encodeMessage width height data message) = EncRejected tooLarge
      <-> (capacity width height / 8 < N.of_nat (16 + length message))%N).
Proof.
  intros Hlat.
  pose proof (frame_length message Hlat) as Hlen.
  pose proof (N.Div0.mul_div_le (capacity width height) 8) as Hdiv.
  pose proof (N.mul_succ_div_gt (capacity width height) 8 ltac:(lia)) as Hdiv'.
  destruct (N.le_gt_cases (N.of_nat (length (frame message)))
              (capacity width height)) as [Hfit|Hbig].
  - rewrite encodeMessage_fits by done. cbn [snd]. split.
    + split; [intros _; lia | done].
    + split; [done | lia].
  - rewrite encodeMessage_overflow by done. cbn [snd]. split.
    + split; [done | lia].
    + split; [intros _; lia | done].
Qed.

Lemma encodeMessage_accepts_iff_witness :
  snd (encodeMessage 10 10 (replicate 400 0%N) (js "hello"))
  = EncResolved (embed (replicate 400 0%N) (frame (js "hello"))).
Proof.
  apply (encodeMessage_accepts_iff 10 10 (replicate 400 0%N) (js "hello")).
  - unfold latin1. vm_compute. repeat constructor.
  - by vm_compute.
Defined.

(** X9: on messages whose code units are all below 256, framing loses
    nothing: the text read back from the frame is the message between its
    markers, and two such messages with the same frame are equal. *)
Theorem frame_injective message1 message2 :
  latin1 message1 -> latin1 message2 ->
  extractTextFromBinary (frame message1) = messageWithMarker message1
  /\ (frame message1 = frame message2 -> message1 = message2).
Proof.
  intros Hlat1 Hlat2.
  assert (forall m, latin1 m ->
            extractTextFromBinary (frame m) = messageWithMarker m) as Htext.
  { intros m Hm. rewrite frame_join.
    by apply extractTextFromBinary_join, latin1_markers. }
  split; [by apply Htext|].
  intros Heq%(f_equal extractTextFromBinary).
  rewrite !Htext in Heq by done. unfold messageWithMarker in Heq.
  by apply app_inv_head, app_inv_tail in Heq.
Qed.

Lemma frame_injective_witness :
  extractTextFromBinary (frame (js "hi")) = messageWithMarker (js "hi")
  /\ (frame (js "hi") = frame (js "hi") -> js "hi" = js "hi").
Proof.
  apply (frame_injective (js "hi") (js "hi"));
    unfold latin1; vm_compute; repeat constructor.
Defined.

(** ** Further properties of the extraction *)

Lemma firstSome_Some_inv {A B} (f : A -> option B) l y :
  firstSome f l = Some y -> exists x, x ∈ l /\ f x = Some y.
Proof.
  induction l as [|x l IH]; cbn [firstSome]; [done|].
  destruct (f x) as [y'|] eqn:Hx.
  - intros [= ->]. exists x. split; [left | done].
  - intros (x' & Hin & Hx')%IH. exists x'. split; [by right | done].
Qed.

Lemma unframe_Some_inv text message :
  unframe text = Some message ->
  exists s e,
    s + 9 < e /\ e + 7 <= length text
    /\ (forall q, q < e -> isPrefix END (drop q text) = false)
    /\ message = take (e - (s + 9)) (drop (s + 9) text).
Proof.
  unfold unframe.
  destruct (includes text START) eqn:Hs; [|done].
  destruct (includes text END) eqn:He; [|done].
  apply includes_true, indexOf_some_inv in Hs as (s & Hs & _).
  apply includes_true, indexOf_some_inv in He as (e & He & Hlen & Hat & Hfirst).
  rewrite Hs, He. cbn [andb].
  destruct (Z.ltb_spec (Z.of_nat s + 9) (Z.of_nat e)) as [Hlt|_]; [|done].
  intros [= <-]. exists s, e.
  apply isPrefix_length in Hat. rewrite length_drop in Hat. simpl in Hat.
  repeat split; [lia | lia | done |].
  replace (Z.of_nat s + 9)%Z with (Z.of_nat (s + 9)) by lia.
  apply substring_range. lia.
Qed.

(** X10: extraction reads nothing but the least significant bits of the
    colour channels: two buffers of the same length that agree on those
    bits give the same result, whatever their alpha bytes and their other
    bits. *)
Theorem decodeMessage_reads_rgb_lsb data data' :
  length data = length data' ->
  (forall i, i mod 4 <> 3 ->
     N.testbit (default 0%N (data !! i)) 0
     = N.testbit (default 0%N (data' !! i)) 0) ->
  decodeMessage data = decodeMessage data'.
Proof.
  intros Hlen Hlsb. rewrite !decodeMessage_firstMatch.
  assert (maxPixels data = maxPixels data') as <-
    by (unfold maxPixels, pixelCount; by rewrite Hlen).
  do 2 f_equal. unfold lsbStream.
  apply Forall_fmap_ext_1, Forall_forall. intros j _.
  unfold lsbChar. rewrite !lsb_testbit. apply Hlsb, chanIndex_not_alpha.
Qed.

Lemma decodeMessage_reads_rgb_lsb_witness :
  decodeMessage [2; 5; 8; 255; 7; 7; 7; 255]%N
  = decodeMessage [100; 201; 32; 0; 1; 1; 1; 9]%N.
Proof.
  apply (decodeMessage_reads_rgb_lsb [2; 5; 8; 255; 7; 7; 7; 255]%N
           [100; 201; 32; 0; 1; 1; 1; 9]%N); [reflexivity|].
  intros i Hi. do 8 (destruct i as [|i]; [reflexivity || done|]). reflexivity.
Defined.

(** X11: a message returned by extraction is never empty, has every
    character code below 256, holds no end marker, and fits with its two
    markers in the bits of the pixels scanned. *)
Theorem decodeMessage_result data message :
  decodeMessage data = DecResolved (Some message) ->
  message <> []
  /\ latin1 message
  /\ includes message END = false
  /\ 8 * (16 + length message) <= 3 * maxPixels data.
Proof.
  rewrite decodeMessage_firstMatch. intros Hres.
  assert (firstMatch (lsbStream data 0 (3 * maxPixels data)) = Some message)
    as Hfirst by congruence.
  clear Hres. unfold firstMatch in Hfirst. rewrite lsbStream_length in Hfirst.
  apply firstSome_Some_inv in Hfirst as (j & Hj%elem_of_seq & Hcheck).
  set (bm := take j (lsbStream data 0 (3 * maxPixels data))) in *.
  assert (length bm = j) as Hbm
    by (unfold bm; rewrite length_take, lsbStream_length; lia).
  unfold checkpoint in Hcheck.
  destruct (_ && _); [|done].
  pose proof (extractTextFromBinary_length bm) as Htext.
  pose proof (extractTextFromBinary_latin1 bm) as Hlat.
  set (text := extractTextFromBinary bm) in *.
  apply unframe_Some_inv in Hcheck as (s & e & Hse & He & Hfirst & ->).
  pose proof (Nat.div_mod_eq (length bm) 8) as Hdiv.
  assert (length (take (e - (s + 9)) (drop (s + 9) text)) = e - (s + 9)) as Hlen
    by (rewrite length_take, length_drop; lia).
  repeat split.
  - intros Hnil. rewrite Hnil in Hlen. simpl in Hlen. lia.
  - by apply Forall_take, Forall_drop.
  - apply includes_false, indexOf_none. intros q Hq.
    apply not_true_is_false. intros Hocc.
    pose proof (isPrefix_length _ _ Hocc) as Hroom.
    rewrite length_drop, Hlen in Hroom. simpl in Hroom.
    assert (isPrefix END (drop (s + 9 + q) text) = true) as Hfull.
    { rewrite <- drop_drop.
      rewrite <- (take_drop (e - (s + 9)) (drop (s + 9) text)).
      rewrite drop_app_le by lia. by apply isPrefix_app. }
    rewrite Hfirst in Hfull; [done | lia].
  - rewrite Hlen. lia.
Qed.

Lemma decodeMessage_result_witness :
  js "hello" <> []
  /\ latin1 (js "hello")
  /\ includes (js "hello") END = false
  /\ 8 * (16 + length (js "hello"))
     <= 3 * maxPixels (embed (replicate 400 7%N) (frame (js "hello"))).
Proof.
  apply (decodeMessage_result
           (embed (replicate 400 7%N) (frame (js "hello"))) (js "hello")).
  vm_compute. reflexivity.
Defined.

Lemma frame_app_END a b :
  frame (a ++ END ++ b) = frame a ++ mjoin (charBinary <$> b ++ END).
Proof.
  rewrite !frame_join. unfold messageWithMarker.
  replace (START ++ (a ++ END ++ b) ++ END)
    with ((START ++ a ++ END) ++ (b ++ END))
    by (by rewrite <- !app_assoc).
  by rewrite fmap_app, join_app.
Qed.

Lemma decodeMessage_embed_frame_app data a rest :
  length data = 4 * pixelCount data ->
  a <> [] -> latin1 a -> includes a END = false ->
  length (frame a ++ rest) <= 3 * pixelCount data ->
  length (frame a) <= 3 * maxPixels data ->
  decodeMessage (embed data (frame a ++ rest)) = DecResolved (Some a).
Proof.
  intros Hlen Hne Hlat Hno Hfit Hscan.
  rewrite decodeMessage_firstMatch, maxPixels_embed. f_equal.
  unfold firstMatch. rewrite lsbStream_length.
  assert (forall j, j <= length (frame a) ->
            take j (lsbStream (embed data (frame a ++ rest)) 0
                      (3 * maxPixels data))
            = take j (frame a)) as Htake.
  { intros j Hj. rewrite lsbStream_take by lia.
    rewrite <- (lsbStream_take _ j (length (frame a ++ rest)))
      by (rewrite length_app; lia).
    rewrite lsbStream_embed by done. by rewrite take_app_le. }
  apply (firstSome_seq_hit _ _ _ _ (length (frame a))).
  - rewrite frame_length in * by done. lia.
  - intros j Hj. rewrite Htake by lia. apply checkpoint_frame_prefix; (done || lia).
  - rewrite Htake, take_ge by done. by apply checkpoint_frame.
Qed.

(** X12: a message that holds the end marker is cut at its first
    occurrence: when the part before it is not empty and has every
    character code below 256, the whole frame fits the image and that part
    with its markers lies within the pixels scanned, extraction after
    embedding returns that part only. *)
Theorem decodeMessage_cut_at_end_marker data a b :
  length data = 4 * pixelCount data ->
  a <> [] -> latin1 a -> includes a END = false ->
  length (frame (a ++ END ++ b)) <= 3 * pixelCount data ->
  length (frame a) <= 3 * maxPixels data ->
  decodeMessage (embed data (frame (a ++ END ++ b))) = DecResolved (Some a).
Proof.
  intros Hlen Hne Hlat Hno Hfit Hscan. rewrite frame_app_END in *.
  by apply decodeMessage_embed_frame_app.
Qed.

Lemma decodeMessage_cut_at_end_marker_witness :
  decodeMessage (embed (replicate 400 0%N) (frame (js "a" ++ END ++ js "b")))
  = DecResolved (Some (js "a")).
Proof.
  apply (decodeMessage_cut_at_end_marker (replicate 400 0%N) (js "a") (js "b")).
  - reflexivity.
  - discriminate.
  - unfold latin1. vm_compute. repeat constructor.
  - vm_compute. reflexivity.
  - vm_compute. lia.
  - assert (length (frame (js "a")) = 136) as -> by (vm_compute; reflexivity).
    assert (maxPixels (replicate 400 0%N) = 100) as ->; [|lia].
    unfold maxPixels. rewrite (pixelCount_exact _ 100) by reflexivity.
    rewrite scanCeiling_value. lia.
Defined.

(** A text without the character '<' holds no end marker. *)
Lemma includes_END_without_lt text :
  Forall (fun c => c <> 60%N) text -> includes text END = false.
Proof.
  intros Hno. apply includes_false, indexOf_none. intros q _.
  pose proof (Forall_drop _ q _ Hno) as Hdrop.
  destruct (drop q text) as [|y l]; [done|].
  apply Forall_cons in Hdrop as [Hy _]. cbn [isPrefix END].
  by destruct (N.eqb_spec 60 y).
Qed.

(** X13: on an image of more than 100,000 pixels, a message without end
    marker whose frame fits the image but is longer than the 300,000 bits of
    the pixels scanned is accepted and embedded in full, yet never read
    back: extraction returns not-found. *)
Theorem decodeMessage_beyond_ceiling width height data message :
  length data = 4 * N.to_nat (width * height) ->
  latin1 message -> includes message END = false ->
  (N.of_nat (length (frame message)) <= capacity width height)%N ->
  3 * scanCeiling < length (frame message) ->
  encodeMessage width height data message
  = (embed data (frame message), EncResolved (embed data (frame message)))
  /\ decodeMessage (embed data (frame message)) = DecResolved None.
Proof.
  intros Hlen Hlat Hno Hfit Hcut. split; [by apply encodeMessage_fits|].
  pose proof (pixelCount_exact _ _ Hlen) as Hpix.
  apply decodeMessage_embed_frame_cut; try done.
  - by rewrite Hpix.
  - unfold capacity in Hfit. rewrite Hpix. lia.
  - unfold maxPixels. lia.
Qed.

Lemma decodeMessage_beyond_ceiling_witness :
  decodeMessage
    (embed (replicate (4 * N.to_nat (100003 * 1)) 0%N)
       (frame (replicate (N.to_nat 37485) 97%N)))
  = DecResolved None.
Proof.
  assert (latin1 (replicate (N.to_nat 37485) 97%N)) as Hlat
    by (apply Forall_replicate; reflexivity).
  apply (decodeMessage_beyond_ceiling 100003 1
           (replicate (4 * N.to_nat (100003 * 1)) 0%N)
           (replicate (N.to_nat 37485) 97%N)).
  - apply length_replicate.
  - exact Hlat.
  - apply includes_END_without_lt, Forall_replicate. discriminate.
  - rewrite (frame_length _ Hlat), length_replicate. unfold capacity. lia.
  - rewrite (frame_length _ Hlat), length_replicate, scanCeiling_value. lia.
Defined.

(** ** The metadata search *)

Lemma takeWhile_Forall {A} (f : A -> bool) l :
  Forall (fun x => f x = true) (takeWhile f l).
Proof.
  induction l as [|x l IH]; cbn [takeWhile]; [constructor|].
  destruct (f x) eqn:Hx; by constructor.
Qed.

Lemma takeWhile_app_stop {A} (f : A -> bool) l tail :
  Forall (fun x => f x = true) l ->
  (forall x, head tail = Some x -> f x = false) ->
  takeWhile f (l ++ tail) = l.
Proof.
  intros Hl Htail. induction Hl as [|x l Hx _ IH]; cbn [app takeWhile].
  - destruct tail as [|y tail]; [done|]. cbn [takeWhile].
    by rewrite (Htail y).
  - by rewrite Hx, IH.
Qed.

Lemma dropWhile_Forall {A} (P : A -> Prop) (f : A -> bool) l :
  Forall P l -> Forall P (dropWhile f l).
Proof.
  induction 1 as [|x l Hx Hl IH]; cbn [dropWhile]; [constructor|].
  destruct (f x); [done | by constructor].
Qed.

Lemma dropWhile_head {A} (f : A -> bool) l x :
  head (dropWhile f l) = Some x -> f x = false.
Proof.
  induction l as [|y l IH]; cbn [dropWhile]; [done|].
  destruct (f y) eqn:Hy; [done|]. by intros [= <-].
Qed.

Lemma trimEnd_Forall (P : N -> Prop) s : Forall P s -> Forall P (trimEnd s).
Proof.
  induction 1 as [|c s Hc Hs IH]; cbn [trimEnd]; [constructor|].
  destruct (trimEnd s) as [|k kept].
  - destruct (isWhiteSpace c); by repeat constructor.
  - by constructor.
Qed.

Lemma trimEnd_head s c : head (trimEnd s) = Some c -> head s = Some c.
Proof.
  destruct s as [|x s]; cbn [trimEnd]; [done|].
  destruct (trimEnd s); [destruct (isWhiteSpace x)|]; done.
Qed.

Lemma trimEnd_last s c : last (trimEnd s) = Some c -> isWhiteSpace c = false.
Proof.
  induction s as [|x s IH]; cbn [trimEnd]; [done|].
  destruct (trimEnd s) as [|k kept].
  - destruct (isWhiteSpace x) eqn:Hx; [done|]. by intros [= <-].
  - intros Hlast. apply IH. by rewrite last_cons_cons in Hlast.
Qed.

(** Either no tag begins anywhere in the text, or the search stops at the
    leftmost position at which one begins. *)
Lemma matchTag_cases t :
  (matchTag t = None /\
   forall q, q <= length t ->
     isPrefix TITLE (drop q t) = false /\ isPrefix COMMENT (drop q t) = false)
  \/ (exists p tag,
        p <= length t /\ (tag = TITLE \/ tag = COMMENT) /\
        isPrefix tag (drop p t) = true /\
        matchTag t = Some (restOfLine (drop (p + length tag) t))).
Proof.
  induction t as [|c t IH]; cbn [matchTag].
  - left. split; [done|]. intros q _. by rewrite drop_nil.
  - destruct (isPrefix TITLE (c :: t)) eqn:Htitle.
    { right. exists 0, TITLE. repeat split; [simpl; lia | by left | done]. }
    destruct (isPrefix COMMENT (c :: t)) eqn:Hcomment.
    { right. exists 0, COMMENT. repeat split; [simpl; lia | by right | done]. }
    destruct IH as [[Hnone Hall]|(p & tag & Hp & Htag & Hat & Hres)].
    + left. split; [done|]. intros [|q] Hq; [done|].
      apply Hall. simpl in Hq. lia.
    + right. exists (S p), tag. repeat split; [simpl; lia | done | done | done].
Qed.

Lemma includes_false_everywhere t s :
  includes t s = false <->
  forall q, q <= length t -> isPrefix s (drop q t) = false.
Proof.
  rewrite includes_false. split; [apply indexOf_none_inv | apply indexOf_none].
Qed.

(** X14: the metadata search returns null exactly when neither [title=] nor
    [comment=] occurs anywhere in the text of the metadata file. *)
Theorem metadataMessage_null metadataText :
  metadataMessage metadataText = None <->
  includes metadataText TITLE = false /\ includes metadataText COMMENT = false.
Proof.
  unfold metadataMessage. rewrite !includes_false_everywhere.
  destruct (matchTag_cases metadataText)
    as [[-> Hall]|(p & tag & Hp & Htag & Hat & ->)].
  - split; [intros _|done]. split; intros q Hq; by apply Hall.
  - split; [done|]. intros [Htitle Hcomment].
    destruct Htag as [-> | ->]; [rewrite Htitle in Hat | rewrite Hcomment in Hat];
      done.
Qed.

Lemma restOfLine_no_terminator t :
  Forall (fun c => isLineTerminator c = false) (restOfLine t).
Proof.
  eapply Forall_impl; [apply takeWhile_Forall|].
  intros c Hc. by apply negb_true_iff.
Qed.

(** X15: a message returned by the metadata search lies on one line (it
    holds no line terminator) and is trimmed: it neither begins nor ends
    with white space. *)
Theorem metadataMessage_trimmed_line metadataText message :
  metadataMessage metadataText = Some message ->
  Forall (fun c => isLineTerminator c = false) message
  /\ (forall c, head message = Some c -> isWhiteSpace c = false)
  /\ (forall c, last message = Some c -> isWhiteSpace c = false).
Proof.
  unfold metadataMessage.
  destruct (matchTag_cases metadataText)
    as [[-> _]|(p & tag & _ & _ & _ & ->)]; [done|].
  intros [= <-]. unfold trim, trimStart. repeat split.
  - apply trimEnd_Forall, dropWhile_Forall, restOfLine_no_terminator.
  - intros c Hc%trimEnd_head. by apply dropWhile_head in Hc.
  - apply trimEnd_last.
Qed.

Lemma metadataMessage_trimmed_line_witness :
  Forall (fun c => isLineTerminator c = false) (js "hello")
  /\ (forall c, head (js "hello") = Some c -> isWhiteSpace c = false)
  /\ (forall c, last (js "hello") = Some c -> isWhiteSpace c = false).
Proof.
  apply (metadataMessage_trimmed_line (js "title=  hello ") (js "hello")).
  vm_compute. reflexivity.
Defined.

(** No tag begins within another tag at a position other than the first. *)
Lemma tag_overlap_free x tag d rest :
  (x = TITLE \/ x = COMMENT) -> (tag = TITLE \/ tag = COMMENT) ->
  0 < d < length x ->
  isPrefix (drop d x) (tag ++ rest) = false.
Proof.
  intros [-> | ->] [-> | ->] Hd; (destruct d as [|d]; [lia|]);
    do 7 (destruct d as [|d]; [first [reflexivity | simpl in Hd; lia]|]);
    simpl in Hd; lia.
Qed.

Lemma matchTag_skip pre t :
  (forall q, q < length pre ->
     isPrefix TITLE (drop q (pre ++ t)) = false
     /\ isPrefix COMMENT (drop q (pre ++ t)) = false) ->
  matchTag (pre ++ t) = matchTag t.
Proof.
  induction pre as [|c pre IH]; intros Hskip; [done|].
  destruct (Hskip 0) as [Htitle Hcomment]; [simpl; lia|].
  cbn [app matchTag]. cbn [drop app] in Htitle, Hcomment.
  rewrite Htitle, Hcomment. apply IH.
  intros q Hq. apply (Hskip (S q)). simpl. lia.
Qed.

Lemma no_tag_across pre tag rest x q :
  includes pre x = false ->
  (x = TITLE \/ x = COMMENT) -> (tag = TITLE \/ tag = COMMENT) ->
  q < length pre ->
  isPrefix x (drop q (pre ++ tag ++ rest)) = false.
Proof.
  intros Hno Hx Htag Hq. rewrite drop_app_le by lia.
  apply not_true_is_false. intros Hocc.
  pose proof (proj1 (includes_false_everywhere _ _) Hno q ltac:(lia)) as Hpre.
  apply isPrefix_app_cases in Hocc as [Hin|(w & Hw & Hrest)]; [congruence|].
  assert (0 < length (drop q pre)) by (rewrite length_drop; lia).
  assert (length x = length (drop q pre) + length w) as Hlen
    by (by rewrite Hw at 1; rewrite length_app).
  assert (w = drop (length (drop q pre)) x) as Hw'
    by (by rewrite Hw at 1; rewrite drop_app_length).
  destruct (decide (length w = 0)) as [Hz|Hnz].
  - apply nil_length_inv in Hz. rewrite Hz, app_nil_r in Hw.
    pose proof (isPrefix_refl x) as Hrefl. rewrite Hw in Hrefl at 2.
    congruence.
  - rewrite Hw', (tag_overlap_free x tag) in Hrest; [done..|lia].
Qed.

(** X16: when the text before a tag holds neither [title=] nor [comment=],
    the metadata search returns the rest of the line after that tag,
    trimmed; what follows the line has no influence. *)
Theorem metadataMessage_first_tag pre tag value tail :
  includes pre TITLE = false -> includes pre COMMENT = false ->
  tag = TITLE \/ tag = COMMENT ->
  Forall (fun c => isLineTerminator c = false) value ->
  (forall c, head tail = Some c -> isLineTerminator c = true) ->
  metadataMessage (pre ++ tag ++ value ++ tail) = Some (trim value).
Proof.
  intros Htitle Hcomment Htag Hvalue Htail. unfold metadataMessage.
  rewrite matchTag_skip.
  - assert (restOfLine (value ++ tail) = value) as Hline.
    { apply takeWhile_app_stop.
      - eapply Forall_impl; [done|]. intros c Hc. cbn beta in *. by rewrite Hc.
      - intros c Hc. by rewrite (Htail c Hc). }
    destruct Htag as [-> | ->]; cbn [matchTag TITLE COMMENT isPrefix app N.eqb
      Pos.eqb drop]; by rewrite drop_0, Hline.
  - intros q Hq. split; apply no_tag_across; auto.
Qed.

Lemma metadataMessage_first_tag_witness :
  metadataMessage
    (js ";FFMETADATA1" ++ [10%N] ++ COMMENT ++ js " my secret  "
       ++ ([10%N] ++ js "title=other"))
  = Some (trim (js " my secret  ")).
Proof.
  apply (metadataMessage_first_tag (js ";FFMETADATA1" ++ [10%N]) COMMENT
           (js " my secret  ") ([10%N] ++ js "title=other")).
  - vm_compute. reflexivity.
  - vm_compute. reflexivity.
  - by right.
  - vm_compute. repeat constructor.
  - intros c [= <-]. reflexivity.
Defined.

(** ** The file type of the audio decoder *)

Lemma matchAudioExtension_Some t matched :
  matchAudioExtension t = Some matched ->
  exists t', matched = take 4 t'
    /\ existsb (fun e => isPrefixIgnoreCase e t') audioExtensions = true.
Proof.
  induction t as [|c t IH]; cbn [matchAudioExtension].
  - destruct (existsb _ _) eqn:Hex; [|done].
    intros [= <-]. by exists [].
  - destruct (existsb _ _) eqn:Hex; [|done].
    intros [= <-]. by exists (c :: t).
Qed.

(** X17: the file type computed by [decodeAudioMessage] always has three
    characters and is, up to the case of its letters, one of mp3, wav, ogg
    and m4a, whatever the source address. *)
Theorem audioFileType_supported audioSrc :
  length (audioFileType audioSrc) = 3
  /\ existsb (fun e => isPrefixIgnoreCase e (audioFileType audioSrc))
       [js "mp3"; js "wav"; js "ogg"; js "m4a"] = true.
Proof.
  unfold audioFileType.
  destruct (matchAudioExtension audioSrc) as [matched|] eqn:Hm; [|done].
  apply matchAudioExtension_Some in Hm as (t & -> & Hex).
  unfold audioExtensions in Hex. cbn [existsb] in Hex.
  assert (exists c0 c1 c2 c3 rest, t = c0 :: c1 :: c2 :: c3 :: rest) as Ht.
  { repeat (apply orb_true_iff in Hex as [Hex|Hex]); try done;
      do 4 (destruct t as [|? t];
            [cbn in Hex; repeat (destruct (eqIgnoreCase _ _)); done|]);
      eauto 6. }
  destruct Ht as (c0 & c1 & c2 & c3 & rest & ->).
  change (take 4 (c0 :: c1 :: c2 :: c3 :: rest)) with [c0; c1; c2; c3].
  change (substring [c0; c1; c2; c3] 1 (Z.of_nat (length [c0; c1; c2; c3])))
    with [c1; c2; c3].
  split; [done|].
  cbn [isPrefixIgnoreCase] in Hex. cbn [existsb js map list_ascii_of_string
    N_of_ascii N_of_digits isPrefixIgnoreCase].
  destruct (eqIgnoreCase 46 c0); [|done].
  rewrite !orb_false_r in Hex |- *. cbn [N.add N.mul Pos.add Pos.succ] in *.
  exact Hex.
Qed.

(** ** The guard of the encode handler *)


